(** * taipan.strings: a shallow embedding and its verified properties

    The development follows [src/taipan/strings.py].  Python text is
    modelled as [string] (a sequence of 8-bit characters); the built-in
    string methods the module delegates to ([str.split], [str.replace],
    [str.capitalize], [re.split], [re.sub] ...) are given with the
    behaviour of CPython 3.7 and later on ASCII text: characters above
    127 are neither letters nor white space.  Dynamically typed
    arguments are values of [pyval]; raising an exception is returning
    [Raise e]. *)

From Stdlib Require Import Bool Arith ZArith List Lia.
From Stdlib Require Import Strings.Ascii Strings.String.
From Stdlib Require Import Numbers.DecimalString.
From Stdlib Require Import Sorting.Sorted Sorting.Permutation.
Import ListNotations.

Open Scope bool_scope.
Open Scope list_scope.
Open Scope string_scope.

(** ** Values and exceptions *)

(** The Python objects that reach the module's string arguments. *)
Inductive pyval : Type :=
| PNone
| PBool (b : bool)
| PInt (z : Z)
| PStr (s : string).

(** Exceptions raised by the module, with the (unformatted) message. *)
Inductive exn : Type :=
| TypeError (msg : string)
| ValueError (msg : string)
| ReplacementError (msg : string)
| KeyError (msg : string)
| IndexError (msg : string)
| OverflowError (msg : string).

Inductive result (A : Type) : Type :=
| Return (a : A)
| Raise (e : exn).

Arguments Return {A} a.
Arguments Raise {A} e.

Definition bind {A B : Type} (m : result A) (k : A -> result B) : result B :=
  match m with
  | Return a => k a
  | Raise e => Raise e
  end.

Notation "x <- m ;; k" := (bind m (fun x => k))
  (at level 61, m at next level, right associativity).

(** [imap f xs] consumed to the end: the first exception wins. *)
Fixpoint mapM {A B : Type} (f : A -> result B) (xs : list A)
  : result (list B) :=
  match xs with
  | [] => Return []
  | x :: xs' => y <- f x ;; ys <- mapM f xs' ;; Return (y :: ys)
  end.

(** Python's [==] on the values above ([True == 1], [False == 0]). *)
Definition as_integral (v : pyval) : option Z :=
  match v with
  | PBool b => Some (if b then 1%Z else 0%Z)
  | PInt z => Some z
  | _ => None
  end.

Definition py_eq (a b : pyval) : bool :=
  match a, b with
  | PNone, PNone => true
  | PStr s, PStr t => String.eqb s t
  | _, _ =>
      match as_integral a, as_integral b with
      | Some x, Some y => Z.eqb x y
      | _, _ => false
      end
  end.

(** [str(v)], the cast [delimiter.__class__(v)]. *)
Definition py_str (v : pyval) : string :=
  match v with
  | PNone => "None"
  | PBool true => "True"
  | PBool false => "False"
  | PInt z => NilZero.string_of_int (Z.to_int z)
  | PStr s => s
  end.

(** [type(v).__name__] is only used inside messages, which are kept
    unformatted. *)

(** ** Kind checks and assertions *)

Definition is_string (s : pyval) : bool :=
  match s with
  | PStr _ => true
  | _ => false
  end.

Definition ensure_string (s : pyval) : result string :=
  match s with
  | PStr t => Return t
  | _ => Raise (TypeError "expected a string, got %s")
  end.

(** ** Built-in string methods *)

(** [s.startswith(p)]. *)
Definition startswith (s p : string) : bool := String.prefix p s.

(** [s[n:]]. *)
Fixpoint drop (n : nat) (s : string) : string :=
  match n, s with
  | O, _ => s
  | S _, EmptyString => EmptyString
  | S k, String _ t => drop k t
  end.

(** [s[:n]] for [0 <= n]. *)
Fixpoint take (n : nat) (s : string) : string :=
  match n, s with
  | O, _ => EmptyString
  | S _, EmptyString => EmptyString
  | S k, String c t => String c (take k t)
  end.

(** [s.endswith(p)]. *)
Definition endswith (s p : string) : bool :=
  Nat.leb (String.length p) (String.length s)
  && String.eqb (drop (String.length s - String.length p) s) p.

(** ** trim *)

Definition trim (s prefix suffix : pyval) (strict : bool) : result string :=
  s <- ensure_string s ;;
  let has_prefix := negb (py_eq prefix PNone) in
  let has_suffix := negb (py_eq suffix PNone) in
  if Bool.eqb has_prefix has_suffix then
    Raise (ValueError "exactly one of either prefix or suffix must be provided")
  else if has_prefix then
    p <- ensure_string prefix ;;
    if startswith s p then Return (drop (String.length p) s)
    else if strict then
      Raise (ValueError "string %r does not start with expected prefix %r")
    else Return s
  else
    x <- ensure_string suffix ;;
    if endswith s x then
      Return (match x with
              | EmptyString => s
              | _ => take (String.length s - String.length x) s
              end)
    else if strict then
      Raise (ValueError "string %r does not end with expected suffix %r")
    else Return s.

(** ** join *)

(** The keyword [with_] of [join]: a value, or a callable. *)
Inductive with_value : Type :=
| WithValue (v : pyval)
| WithCallable (f : pyval -> result pyval).

(** The keyword arguments [join] accepts ([ensure_keyword_args] refuses
    every other key); [None] is an absent key. *)
Record join_kwargs : Type := mk_join_kwargs {
  kw_errors : option pyval;
  kw_with_ : option with_value
}.

Definition no_kwargs : join_kwargs := mk_join_kwargs None None.
Definition errors_ (e : pyval) : join_kwargs := mk_join_kwargs (Some e) None.

(** [x in (a, b)]. *)
Definition py_in (x : pyval) (xs : list pyval) : bool :=
  existsb (py_eq x) xs.

(** [ifilter(is_string, iterable)]. *)
Fixpoint filter_strings (xs : list pyval) : list string :=
  match xs with
  | [] => []
  | PStr s :: xs' => s :: filter_strings xs'
  | _ :: xs' => filter_strings xs'
  end.

Definition join (delimiter : pyval) (iterable : list pyval)
    (kwargs : join_kwargs) : result string :=
  d <- ensure_string delimiter ;;
  let errors :=
    match kw_errors kwargs with Some e => e | None => PBool true end in
  items <-
    (if py_in errors [PStr "raise"; PBool true] then
       mapM ensure_string iterable
     else if py_in errors [PStr "ignore"; PNone] then
       Return (filter_strings iterable)
     else if py_in errors [PStr "cast"; PBool false] then
       Return (map py_str iterable)
     else if py_eq errors (PStr "replace") then
       match kw_with_ kwargs with
       | None =>
           Raise (ValueError
             "'replace' error policy requires specifying replacement through with_=")
       | Some w =>
           replacement <-
             match w with
             | WithValue (PStr r) => Return (fun _ : pyval => Return (PStr r))
             | WithCallable f => Return f
             | WithValue _ =>
                 Raise (TypeError
                   "error replacement must be a string or function, got %s")
             end ;;
           mapM (fun x => if is_string x then ensure_string x
                          else (y <- replacement x ;; ensure_string y))
                iterable
       end
     else
       Raise (TypeError "%r is not a valid error handling policy for join()")) ;;
  Return (String.concat d items).

(** ** str.split *)

(** [c.isspace()] on ASCII: tab, line feed, vertical tab, form feed,
    carriage return, the four separators 28..31 and the space. *)
Definition isspace (c : ascii) : bool :=
  let n := nat_of_ascii c in
  (Nat.leb 9 n && Nat.leb n 13) || (Nat.leb 28 n && Nat.leb n 32).

(** [str.split] and [Pattern.split] take [maxsplit] as a C [ssize_t],
    of 64 bits: an integer that does not fit is an [OverflowError],
    raised when the arguments are read. *)
Definition ssize_t_fits (z : Z) : bool :=
  (- 2 ^ 63 <=? z)%Z && (z <? 2 ^ 63)%Z.

Definition maxsplit_fits (maxsplit : option Z) : bool :=
  match maxsplit with
  | None => true
  | Some m => ssize_t_fits m
  end.

Definition too_large : exn :=
  OverflowError "Python int too large to convert to C ssize_t".

(** [maxsplit] of [str.split], once it is known to fit: a negative
    count is no limit. *)
Definition str_maxcount (maxsplit : option Z) : option nat :=
  match maxsplit with
  | None => None
  | Some z => if (z <? 0)%Z then None else Some (Z.to_nat z)
  end.

Definition count_pred (n : option nat) : option nat := option_map pred n.

Definition exhausted (n : option nat) : bool :=
  match n with
  | Some O => true
  | _ => false
  end.

Fixpoint lstrip (s : string) : string :=
  match s with
  | EmptyString => EmptyString
  | String c t => if isspace c then lstrip t else s
  end.

Definition snoc (s : string) (c : ascii) : string :=
  s ++ String c EmptyString.

(** [s.split(None, maxsplit)]: [word] is the word being read, if any.
    Once the count is used up the rest, without its leading white
    space, is the last item. *)
Fixpoint split_whitespace (maxcount : option nat) (word : option string)
    (s : string) : list string :=
  match word with
  | Some w =>
      match s with
      | EmptyString => [w]
      | String c t =>
          if isspace c then w :: split_whitespace maxcount None t
          else split_whitespace maxcount (Some (snoc w c)) t
      end
  | None =>
      if exhausted maxcount then
        match lstrip s with
        | EmptyString => []
        | r => [r]
        end
      else
        match s with
        | EmptyString => []
        | String c t =>
            if isspace c then split_whitespace maxcount None t
            else split_whitespace (count_pred maxcount)
                   (Some (String c EmptyString)) t
        end
  end.

(** [s.split(sep, maxsplit)] for a non-empty [sep]: [skip] characters
    of a separator found earlier are still to be passed over, [cur] is
    the item being read. *)
Fixpoint split_sep (sep : string) (maxcount : option nat) (skip : nat)
    (cur : string) (s : string) : list string :=
  match s with
  | EmptyString => [cur]
  | String c t =>
      match skip with
      | S k => split_sep sep maxcount k cur t
      | O =>
          if negb (exhausted maxcount) && String.prefix sep s then
            cur :: split_sep sep (count_pred maxcount)
                     (String.length sep - 1) EmptyString t
          else split_sep sep maxcount O (snoc cur c) t
      end
  end.

(** [s.split(by)] and [s.split(by, maxsplit)], [by] being [None] or a
    string. *)
Definition str_split (s : string) (by_ : option string)
    (maxsplit : option Z) : result (list string) :=
  if negb (maxsplit_fits maxsplit) then Raise too_large
  else
    match by_ with
    | None => Return (split_whitespace (str_maxcount maxsplit) None s)
    | Some EmptyString => Raise (ValueError "empty separator")
    | Some sep =>
        Return (split_sep sep (str_maxcount maxsplit) O EmptyString s)
    end.

(** ** Compiled regular expressions *)

(** A compiled pattern without capturing groups: its source text and
    its matcher.  [match_at must_advance subject pos] is the length of
    the match the pattern finds anchored at [pos] in [subject], if any;
    with [must_advance] an empty match is not accepted.  A pattern with
    capturing groups, whose texts [Pattern.split] puts between the
    items, is not a value of this type. *)
Record Regex : Type := mk_Regex {
  pattern : string;
  match_at : bool -> string -> nat -> option nat
}.

(** [maxsplit] of [Pattern.split], once it is known to fit: 0 is no
    limit, a negative count allows no split. *)
Definition re_maxcount (maxsplit : Z) : option nat :=
  if (maxsplit =? 0)%Z then None
  else if (maxsplit <? 0)%Z then Some O
  else Some (Z.to_nat maxsplit).

(** [r.split(subject, maxsplit)] from position [pos], where [s] is the
    rest of [subject].  After an empty match the search resumes at the
    same position and must advance. *)
Fixpoint re_split_scan (r : Regex) (subject : string) (maxcount : option nat)
    (skip : nat) (cur : string) (pos : nat) (s : string) : list string :=
  match skip with
  | S k =>
      match s with
      | EmptyString => [cur]
      | String _ t => re_split_scan r subject maxcount k cur (S pos) t
      end
  | O =>
      if exhausted maxcount then [cur ++ s]
      else
        match match_at r false subject pos with
        | None =>
            match s with
            | EmptyString => [cur]
            | String c t =>
                re_split_scan r subject maxcount O (snoc cur c) (S pos) t
            end
        | Some (S k) =>
            cur ::
            match s with
            | EmptyString => [EmptyString]
            | String _ t =>
                re_split_scan r subject (count_pred maxcount) k
                  EmptyString (S pos) t
            end
        | Some O =>
            let maxcount' := count_pred maxcount in
            cur ::
            if exhausted maxcount' then [s]
            else
              match match_at r true subject pos, s with
              | Some (S k), String _ t =>
                  EmptyString ::
                  re_split_scan r subject (count_pred maxcount') k
                    EmptyString (S pos) t
              | _, String c t =>
                  re_split_scan r subject maxcount' O
                    (String c EmptyString) (S pos) t
              | _, EmptyString => [EmptyString]
              end
        end
  end.

Definition re_split (r : Regex) (s : string) (maxsplit : Z) : list string :=
  re_split_scan r s (re_maxcount maxsplit) O EmptyString O s.

(** [re.escape]: a backslash before each special character. *)
Definition re_special (c : ascii) : bool :=
  existsb (Nat.eqb (nat_of_ascii c))
    [40; 41; 91; 93; 123; 125; 63; 42; 43; 45; 124; 94; 36; 92; 46; 38;
     126; 35; 32; 9; 10; 13; 11; 12].

Fixpoint re_escape (s : string) : string :=
  match s with
  | EmptyString => EmptyString
  | String c t =>
      if re_special c then String "\" (String c (re_escape t))
      else String c (re_escape t)
  end.

(** The first branch of an alternation of literals that matches at the
    start of [s]. *)
Fixpoint first_branch (must_advance : bool) (branches : list string)
    (s : string) : option string :=
  match branches with
  | [] => None
  | b :: bs =>
      if String.prefix b s
         && negb (must_advance && (String.length b =? 0)%nat)
      then Some b
      else first_branch must_advance bs s
  end.

(** [re.compile(text)] where [text] is the alternation, joined by a bar,
    of the escaped literals [branches]. *)
Definition re_compile_literals (text : string) (branches : list string)
  : Regex :=
  mk_Regex text
    (fun must_advance subject pos =>
       option_map String.length
         (first_branch must_advance branches (drop pos subject))).

(** ** split *)

(** The shapes of the argument [by]. *)
Inductive delimiter : Type :=
| ByNone
| ByString (d : string)
| ByRegex (r : Regex)
| ByIterable (items : list pyval)
| ByOther (v : pyval).

(** [split] with a compiled pattern. *)
Definition split_regex (s : string) (by_ : Regex) (maxsplit : option Z)
  : result (list string) :=
  match pattern by_ with
  | EmptyString => str_split s (Some EmptyString) None
  | _ =>
      match maxsplit with
      | Some 0%Z => Return [s]
      | Some m =>
          if ssize_t_fits m then Return (re_split by_ s m)
          else Raise too_large
      | None => Return (re_split by_ s 0)
      end
  end.

Definition split (s : pyval) (by_ : delimiter) (maxsplit : option Z)
  : result (list string) :=
  s <- ensure_string s ;;
  match by_ with
  | ByNone => str_split s None maxsplit
  | ByString d => str_split s (Some d) maxsplit
  | ByRegex r => split_regex s r maxsplit
  | ByIterable items =>
      match items with
      | [] => Raise (ValueError "empty separator list")
      | _ =>
          literals <- mapM ensure_string items ;;
          match s with
          | EmptyString => Return [EmptyString]
          | _ =>
              regex <- join (PStr "|") (map PStr (map re_escape literals))
                         no_kwargs ;;
              split_regex s (re_compile_literals regex literals) maxsplit
          end
      end
  | ByOther _ => Raise (TypeError "invalid separator")
  end.

(** ** camel_case *)

Definition is_upper (c : ascii) : bool :=
  let n := nat_of_ascii c in Nat.leb 65 n && Nat.leb n 90.

Definition is_lower (c : ascii) : bool :=
  let n := nat_of_ascii c in Nat.leb 97 n && Nat.leb n 122.

Definition upper_char (c : ascii) : ascii :=
  if is_lower c then ascii_of_nat (nat_of_ascii c - 32) else c.

Definition lower_char (c : ascii) : ascii :=
  if is_upper c then ascii_of_nat (nat_of_ascii c + 32) else c.

(** [s.lower()]. *)
Fixpoint lower (s : string) : string :=
  match s with
  | EmptyString => EmptyString
  | String c t => String (lower_char c) (lower t)
  end.

(** [s.capitalize()]. *)
Definition capitalize (s : string) : string :=
  match s with
  | EmptyString => EmptyString
  | String c t => String (upper_char c) (lower t)
  end.

(** [words[0] = w]. *)
Definition set_first (words : list string) (w : string)
  : result (list string) :=
  match words with
  | [] => Raise (IndexError "list assignment index out of range")
  | _ :: ws => Return (w :: ws)
  end.

Definition camel_case (arg : pyval) (capitalize_ : pyval) : result string :=
  arg <- ensure_string arg ;;
  match arg with
  | EmptyString => Return arg
  | _ =>
      words <- split (PStr arg) ByNone None ;;
      let first_word := hd_error words in
      let words := map capitalize words in
      words <-
        match first_word with
        | Some first_word =>
            first_word <-
              match capitalize_ with
              | PBool true => Return (capitalize first_word)
              | PBool false =>
                  match first_word with
                  | String c t => Return (String (lower_char c) t)
                  | EmptyString =>
                      Raise (IndexError "string index out of range")
                  end
              | _ => Return first_word
              end ;;
            set_first words first_word
        | None => Return words
        end ;;
      join (PStr EmptyString) (map PStr words) no_kwargs
  end.

(** ** Replacer *)

(** A [dict] from needles to replacements, in insertion order, with
    distinct keys. *)
Definition dict : Type := list (string * string).

Fixpoint dict_get (d : dict) (k : string) : option string :=
  match d with
  | [] => None
  | (k', v) :: d' => if String.eqb k' k then Some v else dict_get d' k
  end.

(** [d[k] = v]: an existing key keeps its place. *)
Fixpoint dict_set (d : dict) (k v : string) : dict :=
  match d with
  | [] => [(k, v)]
  | (k', v') :: d' =>
      if String.eqb k' k then (k', v) :: d' else (k', v') :: dict_set d' k v
  end.

(** [dict(pairs)]. *)
Definition dict_of_pairs (pairs : list (string * string)) : dict :=
  fold_left (fun d kv => dict_set d (fst kv) (snd kv)) pairs [].

(** [dict.fromkeys(keys, value)]. *)
Definition dict_fromkeys (keys : list string) (value : string) : dict :=
  fold_left (fun d k => dict_set d k value) keys [].

Definition dict_keys (d : dict) : list string := map fst d.

(** What a [Replacer] holds: the needles it was given, or the mapping
    of needles to replacements; [is_mapping] is the test for the second
    constructor. *)
Inductive replacements : Type :=
| Needles (needles : list string)
| Mapping (d : dict).

Record Replacer : Type := mk_Replacer {
  _replacements : replacements
}.

(** A method of [Replacer]: its outcome and the object afterwards. *)
Definition method (A : Type) : Type := Replacer -> result A * Replacer.

(** [Replacer.with_]; it returns [self], the object in the second
    component. *)
Definition with_ (replacement : pyval) : method unit :=
  fun self =>
    match ensure_string replacement with
    | Raise e => (Raise e, self)
    | Return replacement =>
        match _replacements self with
        | Mapping _ =>
            (Raise (ReplacementError "string replacements already provided"),
             self)
        | Needles needles =>
            (Return tt,
             mk_Replacer (Mapping (dict_fromkeys needles replacement)))
        end
    end.

(** [old] is not empty. *)
Fixpoint replace_scan (old new : string) (skip : nat) (s : string) : string :=
  match s with
  | EmptyString => EmptyString
  | String c t =>
      match skip with
      | S k => replace_scan old new k t
      | O =>
          if String.prefix old s then
            new ++ replace_scan old new (String.length old - 1) t
          else String c (replace_scan old new O t)
      end
  end.

Fixpoint interleave (new s : string) : string :=
  match s with
  | EmptyString => EmptyString
  | String c t => String c (new ++ interleave new t)
  end.

(** [s.replace(old, new)]. *)
Definition str_replace (s old new : string) : string :=
  match old with
  | EmptyString => new ++ interleave new s
  | _ => replace_scan old new O s
  end.

(** [sorted(xs, key=len, reverse=True)]: stable. *)
Fixpoint insert_by_length (x : string) (xs : list string) : list string :=
  match xs with
  | [] => [x]
  | y :: ys =>
      if Nat.ltb (String.length x) (String.length y)
      then y :: insert_by_length x ys
      else x :: xs
  end.

Definition sorted_by_length_desc (xs : list string) : list string :=
  fold_right insert_by_length [] xs.

(** [re.sub(r, repl, subject)] with a function [repl] of the matched
    text, from position [pos], where [s] is the rest of [subject]. *)
Fixpoint re_sub_scan (r : Regex) (repl : string -> result string)
    (subject : string) (skip : nat) (pos : nat) (s : string)
  : result string :=
  match skip with
  | S k =>
      match s with
      | EmptyString => Return EmptyString
      | String _ t => re_sub_scan r repl subject k (S pos) t
      end
  | O =>
      match match_at r false subject pos with
      | None =>
          match s with
          | EmptyString => Return EmptyString
          | String c t =>
              rest <- re_sub_scan r repl subject O (S pos) t ;;
              Return (String c rest)
          end
      | Some (S k) =>
          out <- repl (take (S k) s) ;;
          match s with
          | EmptyString => Return out
          | String _ t =>
              rest <- re_sub_scan r repl subject k (S pos) t ;;
              Return (out ++ rest)
          end
      | Some O =>
          out <- repl EmptyString ;;
          match match_at r true subject pos, s with
          | Some (S k), String _ t =>
              out' <- repl (take (S k) s) ;;
              rest <- re_sub_scan r repl subject k (S pos) t ;;
              Return (out ++ out' ++ rest)
          | _, String c t =>
              rest <- re_sub_scan r repl subject O (S pos) t ;;
              Return (out ++ String c rest)
          | _, EmptyString => Return out
          end
      end
  end.

Definition re_sub (r : Regex) (repl : string -> result string)
    (s : string) : result string :=
  re_sub_scan r repl s O O s.

(** Modelled from the spec: [taipan.collections.dicts.peekitem] is not
    among the sources; of a mapping with exactly one needle it gives that
    needle and its replacement. *)
Definition peekitem (d : dict) : result (string * string) :=
  match d with
  | item :: _ => Return item
  | [] => Raise (KeyError "peekitem(): dictionary is empty")
  end.

(** [Replacer.in_]. *)
Definition in_ (haystack : pyval) : method string :=
  fun self =>
    (match ensure_string haystack with
     | Raise e => Raise e
     | Return haystack =>
         match _replacements self with
         | Needles _ =>
             Raise (ReplacementError "string replacements not provided")
         | Mapping d =>
             if Nat.eqb (List.length d) 0 then Return haystack
             else if Nat.eqb (List.length d) 1 then
               item <- peekitem d ;;
               Return (str_replace haystack (fst item) (snd item))
             else
               let needles := sorted_by_length_desc (dict_keys d) in
               regex <- join (PStr "|") (map PStr (map re_escape needles))
                          no_kwargs ;;
               let do_replace := fun m =>
                 match dict_get d m with
                 | Some v => Return v
                 | None => Raise (KeyError "%r")
                 end in
               re_sub (re_compile_literals regex needles) do_replace haystack
         end
     end, self).

(** ** replace *)

(** An element of an iterable given as needle: a pair of strings
    ([is_pair]) or any other value. *)
Inductive needle_item : Type :=
| ItemValue (v : pyval)
| ItemPair (k v : string).

(** The shapes of the argument [needle]. *)
Inductive needle_arg : Type :=
| NeedleValue (v : pyval)
| NeedleIterable (items : list needle_item)
| NeedleMapping (d : dict).

(** [bool(needle)]. *)
Definition truthy (v : pyval) : bool :=
  match v with
  | PNone => false
  | PBool b => b
  | PInt z => negb (z =? 0)%Z
  | PStr s => negb (String.eqb s EmptyString)
  end.

Definition needle_truthy (needle : needle_arg) : bool :=
  match needle with
  | NeedleValue v => truthy v
  | NeedleIterable items => negb (Nat.eqb (List.length items) 0)
  | NeedleMapping d => negb (Nat.eqb (List.length d) 0)
  end.

(** Modelled from the spec: [taipan.collections.tuples.is_pair] is not
    among the sources; it tells a needle-to-replacement pair from a
    literal. *)
Definition is_pair (x : needle_item) : bool :=
  match x with
  | ItemPair _ _ => true
  | ItemValue _ => false
  end.

Definition item_is_string (x : needle_item) : bool :=
  match x with
  | ItemValue v => is_string v
  | ItemPair _ _ => false
  end.

Fixpoint item_pairs (items : list needle_item) : list (string * string) :=
  match items with
  | [] => []
  | ItemPair k v :: xs => (k, v) :: item_pairs xs
  | ItemValue _ :: xs => item_pairs xs
  end.

Fixpoint item_strings (items : list needle_item) : list string :=
  match items with
  | [] => []
  | ItemValue (PStr s) :: xs => s :: item_strings xs
  | _ :: xs => item_strings xs
  end.

(** What [replace] returns: the final string, or the [Replacer]. *)
Inductive replace_result : Type :=
| Replaced (s : string)
| Pending (replacer : Replacer).

Definition replace (needle : needle_arg) (with__ in__ : pyval)
  : result replace_result :=
  match needle with
  | NeedleValue PNone => Raise (TypeError "replacement needle cannot be None")
  | _ =>
      if negb (needle_truthy needle) then
        Raise (ValueError "replacement needle cannot be empty")
      else
        replacer <-
          match needle with
          | NeedleValue (PStr s) => Return (mk_Replacer (Needles [s]))
          | NeedleValue _ => Raise (TypeError "expected an iterable, got %s")
          | NeedleMapping d => Return (mk_Replacer (Mapping d))
          | NeedleIterable items =>
              if forallb is_pair items then
                Return (mk_Replacer (Mapping (dict_of_pairs (item_pairs items))))
              else if negb (forallb item_is_string items) then
                Raise (TypeError "invalid replacement needle")
              else Return (mk_Replacer (Needles (item_strings items)))
          end ;;
        replacer <-
          (if negb (py_eq with__ PNone) then
             _ <- ensure_string with__ ;;
             match with_ with__ replacer with
             | (Return _, self) => Return self
             | (Raise e, _) => Raise e
             end
           else Return replacer) ;;
        if negb (py_eq in__ PNone) then
          _ <- ensure_string in__ ;;
          s <- fst (in_ in__ replacer) ;;
          Return (Replaced s)
        else Return (Pending replacer)
  end.

(** ** random *)

(** The shapes of the argument [length]: a pair of integers, or any
    other value. *)
Inductive length_arg : Type :=
| LengthPair (lo hi : Z)
| LengthValue (v : pyval).

(** The generator behind [randint] and [choice]: [draws i] is the
    [i]-th raw number it yields; the state is the index of the next
    draw. *)
Definition entropy : Type := nat -> nat.

(** [randint(a, b)]. *)
Definition randint (draws : entropy) (a b : Z) (i : nat)
  : result (Z * nat) :=
  if (b <? a)%Z then Raise (ValueError "empty range for randrange()")
  else Return ((a + Z.of_nat (draws i) mod (b - a + 1))%Z, S i).

(** [choice(chars)] for a non-empty [chars]. *)
Definition choice (draws : entropy) (chars : string) (i : nat)
  : ascii * nat :=
  (match String.get (draws i mod String.length chars) chars with
   | Some c => c
   | None => zero
   end, S i).

(** [choice(chars) for _ in xrange(n)]. *)
Fixpoint choices (draws : entropy) (chars : string) (n : nat) (i : nat)
  : list string * nat :=
  match n with
  | O => ([], i)
  | S n' =>
      let (c, i') := choice draws chars i in
      let (cs, i'') := choices draws chars n' i' in
      (String c EmptyString :: cs, i'')
  end.

Definition ascii_letters : string :=
  "abcdefghijklmnopqrstuvwxyzABCDEFGHIJKLMNOPQRSTUVWXYZ".

Definition digits : string := "0123456789".

Definition random (draws : entropy) (length : length_arg)
    (chars : pyval) (i : nat) : result (string * nat) :=
  chars <-
    match chars with
    | PNone => Return (ascii_letters ++ digits)
    | _ =>
        chars <- ensure_string chars ;;
        match chars with
        | EmptyString => Raise (ValueError "character set must not be empty")
        | _ => Return chars
        end
    end ;;
  drawn <-
    match length with
    | LengthPair lo hi => randint draws lo hi i
    | LengthValue v =>
        match as_integral v with
        | Some n =>
            if negb (0 <? n)%Z then
              Raise (ValueError "random string length must be positive (got %r)")
            else Return (n, i)
        | None =>
            Raise (TypeError "random string length must be an integer; got '%s'")
        end
    end ;;
  let (length, i) := drawn in
  let (cs, i) := choices draws chars (Z.to_nat length) i in
  s <- join (PStr EmptyString) (map PStr cs) no_kwargs ;;
  Return (s, i).

(** ** The assertions on strings of [taipan.testing.asserts] *)

(** What an assertion comes to: it passes, it fails the test with the
    standard message and the message of the caller, or it ends in an
    error. *)
Inductive verdict : Type :=
| Pass
| Fail (standard_msg : string) (msg : option string)
| Error (e : exn).

(** The prefix or suffix given to an assertion: one value, a tuple or a
    list. *)
Inductive affix : Type :=
| AffixValue (v : pyval)
| AffixTuple (items : list pyval)
| AffixList (items : list pyval).

(** [__fail_unless_strings]: [None] when the argument is a string or an
    iterable of strings. *)
Definition fail_unless_strings (arg : affix) : option verdict :=
  let ok :=
    match arg with
    | AffixValue v => is_string v
    | AffixTuple items | AffixList items => forallb is_string items
    end in
  if ok then None
  else Some (Fail "%r is not a string or iterable of strings" None).

(** [assertIsInstance(string, BaseString)]. *)
Definition assertIsInstance_string (string_ : pyval) : option verdict :=
  if is_string string_ then None
  else Some (Fail "%s is not an instance of %r" None).

(** [s.startswith(t)] and [s.endswith(t)] for a tuple [t], read from
    left to right; [name] is the name of the method. *)
Fixpoint any_affix (name : string) (test : string -> bool)
    (items : list pyval) : result bool :=
  match items with
  | [] => Return false
  | PStr p :: items' =>
      if test p then Return true else any_affix name test items'
  | _ :: _ =>
      Raise (TypeError
               ("tuple for " ++ name ++ " must only contain str, not %s"))
  end.

(** [s.startswith(arg)] and [s.endswith(arg)] for the arguments that
    pass the check above. *)
Definition str_affix_test (name : string) (test : string -> bool)
    (arg : affix) : result bool :=
  match arg with
  | AffixValue (PStr p) => Return (test p)
  | AffixTuple items => any_affix name test items
  | _ =>
      Raise (TypeError
               (name ++ " first arg must be str or a tuple of str, not %s"))
  end.

Definition assert_affix (name : string) (test : string -> string -> bool)
    (standard_msg : string) (arg : affix) (string_ : pyval)
    (msg : option string) : verdict :=
  match fail_unless_strings arg with
  | Some failure => failure
  | None =>
      match assertIsInstance_string string_ with
      | Some failure => failure
      | None =>
          match string_ with
          | PStr s =>
              match str_affix_test name (test s) arg with
              | Return true => Pass
              | Return false => Fail standard_msg msg
              | Raise e => Error e
              end
          | _ => Fail "%s is not an instance of %r" None
          end
      end
  end.

Definition assertStartsWith (prefix : affix) (string_ : pyval)
    (msg : option string) : verdict :=
  assert_affix "startswith" startswith "%r does not start with %r"
    prefix string_ msg.

Definition assertEndsWith (suffix : affix) (string_ : pyval)
    (msg : option string) : verdict :=
  assert_affix "endswith" endswith "%r does not end with %r"
    suffix string_ msg.

(** ** Specification predicates *)

(** A character set [random] accepts. *)
Definition valid_chars (chars : pyval) : Prop :=
  chars = PNone \/ exists s, chars = PStr s /\ s <> EmptyString.

(** [a] comes before [b] in an order of descending length. *)
Definition longer_first (a b : string) : Prop :=
  String.length b <= String.length a.

(** [simultaneous d h out]: [out] is [h] read once from left to right,
    where at each position the longest needle of [d] that occurs there
    is replaced and passed over, and a character at which no needle
    occurs is kept.  Nothing is looked for in the text written. *)
Inductive simultaneous (d : dict) : string -> string -> Prop :=
| sim_end : simultaneous d EmptyString EmptyString
| sim_keep (c : ascii) (h out : string) :
    (forall k, In k (dict_keys d) -> String.prefix k (String c h) = false) ->
    simultaneous d h out ->
    simultaneous d (String c h) (String c out)
| sim_needle (k v h out : string) :
    k <> EmptyString ->
    dict_get d k = Some v ->
    (forall k', In k' (dict_keys d) -> String.prefix k' (k ++ h) = true ->
                String.length k' <= String.length k) ->
    simultaneous d h out ->
    simultaneous d (k ++ h) (v ++ out).

(** [sub] occurs in [s]. *)
Definition contains (s sub : string) : Prop :=
  exists a b, s = a ++ sub ++ b.

(** Every character of [s] satisfies [p]. *)
Fixpoint all_chars (p : ascii -> bool) (s : string) : bool :=
  match s with
  | EmptyString => true
  | String c t => p c && all_chars p t
  end.

(** A word: not empty, and without white space. *)
Definition is_word (w : string) : Prop :=
  w <> EmptyString /\ all_chars (fun c => negb (isspace c)) w = true.

(** While an item [cur] is read before [s], the separator starts nowhere
    inside it. *)
Definition separator_free (sep cur s : string) : Prop :=
  forall a b, cur = a ++ b -> b <> EmptyString ->
              String.prefix sep (b ++ s) = false.

(** What [join] puts for an element under the policy of replacement by
    a fixed string. *)
Definition replaced_by (w : string) (x : pyval) : string :=
  match x with
  | PStr s => s
  | _ => w
  end.

(** A character that is not white space. *)
Definition not_space (c : ascii) : bool := negb (isspace c).

(** [w[0].lower() + w[1:]]. *)
Definition lower_first (w : string) : string :=
  match w with
  | EmptyString => EmptyString
  | String c t => String (lower_char c) t
  end.

(** The words of a camel-cased text, for each value of [capitalize]. *)
Definition camel_words (capitalize_ : pyval) (words : list string)
  : list string :=
  match words with
  | [] => []
  | w :: ws =>
      match capitalize_ with
      | PBool true => capitalize w
      | PBool false => lower_first w
      | _ => w
      end :: map capitalize ws
  end.

(** [sub] starts at some position of [s]. *)
Fixpoint occurs (sub s : string) : bool :=
  String.prefix sub s
  || match s with
     | EmptyString => false
     | String _ t => occurs sub t
     end.

(** The iterable of the literals [ns], and the iterable of the pairs
    [ps], as arguments of [replace]. *)
Definition literal_items (ns : list string) : list needle_item :=
  map (fun n => ItemValue (PStr n)) ns.

Definition pair_items (ps : list (string * string)) : list needle_item :=
  map (fun kv => ItemPair (fst kv) (snd kv)) ps.

(** [c] is one of the characters of [chars]. *)
Fixpoint char_in (chars : string) (c : ascii) : bool :=
  match chars with
  | EmptyString => false
  | String x t => Ascii.eqb x c || char_in t c
  end.

(** The characters [random] draws from. *)
Definition alphabet (chars : pyval) : string :=
  match chars with
  | PStr s => s
  | _ => ascii_letters ++ digits
  end.

(** [maxsplit] is left out, or fits a C [ssize_t]. *)
Definition within_ssize_t (maxsplit : option Z) : Prop :=
  match maxsplit with
  | None => True
  | Some m => (- 2 ^ 63 <= m < 2 ^ 63)%Z
  end.

(** * Properties *)

(** ** Strings *)

Lemma append_empty_r (s : string) : s ++ EmptyString = s.
Proof. induction s as [|c s IH]; simpl; [reflexivity | now rewrite IH]. Qed.

Lemma append_assoc (a b c : string) : (a ++ b) ++ c = a ++ (b ++ c).
Proof. induction a as [|x a IH]; simpl; [reflexivity | now rewrite IH]. Qed.

Lemma snoc_append (cur : string) (c : ascii) (t : string) :
  snoc cur c ++ t = cur ++ String c t.
Proof. unfold snoc. now rewrite append_assoc. Qed.

Lemma length_append (a b : string) :
  String.length (a ++ b) = String.length a + String.length b.
Proof. induction a as [|x a IH]; simpl; [reflexivity | now rewrite IH]. Qed.

Lemma prefix_append (p s : string) : String.prefix p (p ++ s) = true.
Proof.
  induction p as [|c p IH]; simpl.
  - now destruct s.
  - destruct (ascii_dec c c) as [_|ne]; [exact IH | now elim ne].
Qed.

Lemma prefix_split (p s : string) :
  String.prefix p s = true -> exists r, s = p ++ r.
Proof.
  revert s. induction p as [|c p IH]; intros s H.
  - now exists s.
  - destruct s as [|c' s]; simpl in H; [discriminate|].
    destruct (ascii_dec c c') as [->|]; [|discriminate].
    destruct (IH _ H) as [r ->]. now exists r.
Qed.

Lemma drop_append (p s : string) : drop (String.length p) (p ++ s) = s.
Proof. induction p as [|c p IH]; simpl; [now destruct s | exact IH]. Qed.

Lemma drop_0 (s : string) : drop 0 s = s.
Proof. now destruct s. Qed.

Lemma prefix_length (p s : string) :
  String.prefix p s = true -> String.length p <= String.length s.
Proof.
  intros H. destruct (prefix_split _ _ H) as [r ->].
  rewrite length_append. lia.
Qed.

Lemma prefix_drop (p s : string) :
  String.prefix p s = true -> p ++ drop (String.length p) s = s.
Proof.
  intros H. destruct (prefix_split _ _ H) as [r ->].
  now rewrite drop_append.
Qed.

(** ** Results *)

Lemma mapM_ensure_string (l : list string) :
  mapM ensure_string (map PStr l) = Return l.
Proof.
  induction l as [|x l IH]; simpl; [reflexivity|].
  now rewrite IH.
Qed.

(** Joining strings with the default policy is [str.join]. *)
Lemma join_strings (d : string) (l : list string) :
  join (PStr d) (map PStr l) no_kwargs = Return (String.concat d l).
Proof.
  unfold join. simpl. now rewrite mapM_ensure_string.
Qed.

Lemma concat_cons (d x : string) (l : list string) :
  l <> [] -> String.concat d (x :: l) = x ++ d ++ String.concat d l.
Proof. destruct l; [now intros H; elim H | reflexivity]. Qed.

(** ** trim *)

(** C7: removing a present prefix leaves exactly the remainder; an
    absent prefix is an error when [strict], and leaves the string as it
    is otherwise. *)
Theorem trim_prefix_law :
  (forall (s p : string) (strict : bool),
      trim (PStr (p ++ s)) (PStr p) PNone strict = Return s)
  /\ (forall s p : string,
         (forall r, s <> p ++ r) ->
         trim (PStr s) (PStr p) PNone true
         = Raise (ValueError
                    "string %r does not start with expected prefix %r")
         /\ trim (PStr s) (PStr p) PNone false = Return s).
Proof.
  split.
  - intros s p strict. unfold trim, startswith. simpl.
    now rewrite prefix_append, drop_append.
  - intros s p H. unfold trim, startswith. simpl.
    destruct (String.prefix p s) eqn:E.
    + destruct (prefix_split _ _ E) as [r Hr]. now elim (H r).
    + now split.
Qed.

Lemma trim_prefix_law_witness :
  trim (PStr "foobar") (PStr "baz") PNone true
  = Raise (ValueError "string %r does not start with expected prefix %r")
  /\ trim (PStr "foobar") (PStr "baz") PNone false = Return "foobar".
Proof.
  apply (proj2 trim_prefix_law "foobar" "baz").
  intros r H. simpl in H. discriminate H.
Defined.

(** ** split and join *)

Lemma split_sep_nonempty (sep : string) (s : string) :
  forall maxcount skip cur, split_sep sep maxcount skip cur s <> [].
Proof.
  induction s as [|c t IH]; intros maxcount skip cur; cbn [split_sep].
  - discriminate.
  - destruct skip as [|k]; [|apply IH].
    destruct (negb (exhausted maxcount) && String.prefix sep (String c t));
      [discriminate | apply IH].
Qed.

(** Joining the items of a split with the separator gives back what was
    read, whatever the count of splits allowed. *)
Lemma concat_split_sep (sep : string) :
  sep <> EmptyString ->
  forall s maxcount skip cur,
    skip <= String.length s ->
    String.concat sep (split_sep sep maxcount skip cur s)
    = cur ++ drop skip s.
Proof.
  intros Hsep. induction s as [|c t IH]; intros maxcount skip cur Hskip.
  - simpl. destruct skip; simpl; now rewrite append_empty_r.
  - cbn [split_sep]. destruct skip as [|k].
    + destruct (negb (exhausted maxcount)
                && String.prefix sep (String c t)) eqn:E.
      * apply andb_true_iff in E. destruct E as [_ E].
        rewrite concat_cons by apply split_sep_nonempty.
        pose proof (prefix_length _ _ E) as Hlen.
        rewrite IH by (simpl in Hlen; lia).
        f_equal.
        destruct sep as [|c' sep']; [now elim Hsep|].
        simpl in E. destruct (ascii_dec c' c) as [->|]; [|discriminate].
        cbn [String.length append].
        replace (S (String.length sep') - 1) with (String.length sep') by lia.
        rewrite drop_0. f_equal. now apply prefix_drop.
      * rewrite IH by lia. rewrite drop_0. apply snoc_append.
    + rewrite IH by (simpl in Hskip; lia). reflexivity.
Qed.

(** C5: splitting on a non-empty literal and joining with it gives the
    string back. *)
Theorem join_split_roundtrip (s d : string) :
  d <> EmptyString ->
  (words <- split (PStr s) (ByString d) None ;;
   join (PStr d) (map PStr words) no_kwargs) = Return s.
Proof.
  intros Hd. unfold split, str_split. simpl.
  destruct d as [|c d']; [now elim Hd|].
  simpl. rewrite join_strings. f_equal.
  rewrite concat_split_sep by (discriminate || (simpl; lia)).
  now rewrite drop_0.
Qed.

Lemma join_split_roundtrip_witness :
  (words <- split (PStr ",a,,b,") (ByString ",") None ;;
   join (PStr ",") (map PStr words) no_kwargs) = Return ",a,,b,".
Proof.
  apply (join_split_roundtrip ",a,,b," ","). discriminate.
Defined.

Lemma split_sep_exhausted (sep : string) (s : string) :
  forall cur, split_sep sep (Some 0) 0 cur s = [cur ++ s].
Proof.
  induction s as [|c t IH]; intros cur; cbn [split_sep].
  - now rewrite append_empty_r.
  - cbn [exhausted negb andb]. rewrite IH. now rewrite snoc_append.
Qed.

Lemma re_escape_empty (s : string) :
  re_escape s = EmptyString -> s = EmptyString.
Proof.
  destruct s as [|c t]; [reflexivity|].
  simpl. now destruct (re_special c).
Qed.

(** The text of the alternation is empty only for the single empty
    literal. *)
Lemma alternation_text_empty (ls : list string) :
  String.concat "|" (map re_escape ls) = EmptyString ->
  ls = [] \/ ls = [EmptyString].
Proof.
  destruct ls as [|x [|y l]]; intros H.
  - now left.
  - right. simpl in H. now rewrite (re_escape_empty _ H).
  - exfalso. cbn [map String.concat] in H.
    destruct (re_escape x); discriminate H.
Qed.

(** C4, as the code has it: with [maxsplit=0] a non-empty string comes
    back as the single item for a non-empty literal, for a compiled
    pattern with a non-empty text and for a collection of literals other
    than the single empty literal; the white-space split still removes
    the leading white space, and yields no item at all when nothing else
    is left. *)
Theorem split_maxsplit_zero (s : string) :
  s <> EmptyString ->
  (forall d, d <> EmptyString ->
             split (PStr s) (ByString d) (Some 0%Z) = Return [s])
  /\ (forall r, pattern r <> EmptyString ->
                split (PStr s) (ByRegex r) (Some 0%Z) = Return [s])
  /\ (forall ls, ls <> [] -> ls <> [EmptyString] ->
                 split (PStr s) (ByIterable (map PStr ls)) (Some 0%Z)
                 = Return [s])
  /\ split (PStr s) ByNone (Some 0%Z)
     = Return (match lstrip s with
               | EmptyString => []
               | r => [r]
               end)
  /\ (forall c t, s = String c t -> isspace c = false ->
                  split (PStr s) ByNone (Some 0%Z) = Return [s]).
Proof.
  intros Hs. split; [|split; [|split; [|split]]].
  - intros d Hd. unfold split, str_split. simpl.
    destruct d as [|c d']; [now elim Hd|].
    now rewrite split_sep_exhausted.
  - intros r Hr. unfold split, split_regex. simpl.
    destruct (pattern r); [now elim Hr | reflexivity].
  - intros ls Hne Hls. unfold split. simpl.
    destruct ls as [|x l]; [now elim Hne|].
    cbn [map]. change (PStr x :: map PStr l) with (map PStr (x :: l)).
    rewrite mapM_ensure_string. cbn [bind].
    destruct s as [|c t]; [now elim Hs|].
    rewrite join_strings. cbn [bind].
    unfold split_regex. cbn [pattern re_compile_literals].
    destruct (String.concat "|" (map re_escape (x :: l))) eqn:E;
      [|reflexivity].
    destruct (alternation_text_empty _ E) as [H|H];
      [discriminate H | now elim Hls].
  - now destruct s.
  - intros c t -> Hc. unfold split, str_split. simpl. now rewrite Hc.
Qed.

Lemma split_maxsplit_zero_witness :
  split (PStr " a b") (ByString " ") (Some 0%Z) = Return [" a b"]
  /\ split (PStr " a b") ByNone (Some 0%Z) = Return ["a b"].
Proof.
  destruct (split_maxsplit_zero " a b") as (H1 & _ & _ & H4 & _).
  - discriminate.
  - split; [apply H1; discriminate | exact H4].
Defined.

(** C4 as stated fails: the white-space split with [maxsplit=0] does
    not return the string unchanged when it starts with white space. *)
Lemma split_maxsplit_zero_whitespace_counterexample :
  split (PStr " a") ByNone (Some 0%Z) = Return ["a"]
  /\ split (PStr " a") ByNone (Some 0%Z) <> Return [" a"].
Proof. split; [reflexivity | discriminate]. Qed.

Lemma ssize_t_fits_iff (m : Z) :
  ssize_t_fits m = true <-> (- 2 ^ 63 <= m < 2 ^ 63)%Z.
Proof.
  unfold ssize_t_fits. rewrite andb_true_iff, Z.leb_le, Z.ltb_lt.
  reflexivity.
Qed.

Lemma maxsplit_fits_iff (maxsplit : option Z) :
  maxsplit_fits maxsplit = true <-> within_ssize_t maxsplit.
Proof.
  destruct maxsplit as [m|]; [apply ssize_t_fits_iff | now split].
Qed.

(** [str.split] with a [maxsplit] that fits. *)
Lemma str_split_fits (s : string) (by_ : option string)
    (maxsplit : option Z) :
  within_ssize_t maxsplit ->
  str_split s by_ maxsplit
  = match by_ with
    | None => Return (split_whitespace (str_maxcount maxsplit) None s)
    | Some EmptyString => Raise (ValueError "empty separator")
    | Some sep =>
        Return (split_sep sep (str_maxcount maxsplit) O EmptyString s)
    end.
Proof.
  intros H. apply maxsplit_fits_iff in H. unfold str_split. now rewrite H.
Qed.

(** C10: the empty string splits into no item on white space, and into
    the single empty item on a non-empty collection of literals or on a
    non-empty literal.  This holds without [maxsplit] and with every
    [maxsplit] that fits a C [ssize_t]; the collection does not look at
    [maxsplit] at all. *)
Theorem split_empty_string (maxsplit : option Z) :
  (within_ssize_t maxsplit ->
   split (PStr EmptyString) ByNone maxsplit = Return [])
  /\ (forall ls, ls <> [] ->
                 split (PStr EmptyString) (ByIterable (map PStr ls)) maxsplit
                 = Return [EmptyString])
  /\ (forall d, d <> EmptyString -> within_ssize_t maxsplit ->
                split (PStr EmptyString) (ByString d) maxsplit
                = Return [EmptyString]).
Proof.
  split; [|split].
  - intros Hm. unfold split. cbn [ensure_string bind].
    rewrite (str_split_fits _ _ _ Hm). cbn [split_whitespace lstrip].
    now destruct (exhausted (str_maxcount maxsplit)).
  - intros ls Hne. unfold split. cbn [ensure_string bind].
    destruct ls as [|x l]; [now elim Hne|].
    cbn [map]. change (PStr x :: map PStr l) with (map PStr (x :: l)).
    now rewrite mapM_ensure_string.
  - intros d Hd Hm. unfold split. cbn [ensure_string bind].
    rewrite (str_split_fits _ _ _ Hm).
    destruct d as [|c d']; [now elim Hd | reflexivity].
Qed.

Lemma split_empty_string_witness :
  split (PStr EmptyString) ByNone None = Return []
  /\ split (PStr EmptyString) (ByIterable (map PStr [","; ";"])) None
     = Return [EmptyString]
  /\ split (PStr EmptyString) (ByString ",") None = Return [EmptyString].
Proof.
  destruct (split_empty_string None) as (H1 & H2 & H3).
  split; [apply H1; exact I|].
  split; [apply H2; discriminate | apply H3; [discriminate | exact I]].
Defined.

(** C8: the error policies of [join]. *)
Theorem join_error_policies :
  join (PStr "-") [] (errors_ (PStr "raise")) = Return EmptyString
  /\ join (PStr "-") [PInt 1; PStr "a"] (errors_ (PStr "cast")) = Return "1-a"
  /\ join (PStr "-") [PInt 1; PStr "a"] (errors_ (PStr "ignore")) = Return "a"
  /\ join (PStr "-") [PInt 1] (errors_ (PStr "raise"))
     = Raise (TypeError "expected a string, got %s")
  /\ (forall d items,
         join (PStr d) items (errors_ (PStr "cast"))
         = Return (String.concat d (map py_str items)))
  /\ (forall s, py_str (PStr s) = s)
  /\ (forall d items,
         join (PStr d) items (errors_ (PStr "ignore"))
         = Return (String.concat d (filter_strings items))).
Proof. repeat split. Qed.

(** ** random *)

(** C9: only a fixed integral length is checked for positivity.  A
    length drawn from a pair is used as it comes: a pair with no
    positive member gives the empty string, where a fixed length of
    zero or less is a [ValueError]. *)
Theorem random_pair_length_unchecked (draws : entropy) (i : nat) :
  random draws (LengthPair 0 0) PNone i = Return (EmptyString, S i)
  /\ random draws (LengthValue (PInt 0)) PNone i
     = Raise (ValueError "random string length must be positive (got %r)")
  /\ (forall lo hi chars,
         (lo <= hi)%Z -> (hi <= 0)%Z -> valid_chars chars ->
         random draws (LengthPair lo hi) chars i = Return (EmptyString, S i))
  /\ (forall n chars,
         (n <= 0)%Z -> valid_chars chars ->
         random draws (LengthValue (PInt n)) chars i
         = Raise (ValueError
                    "random string length must be positive (got %r)")).
Proof.
  assert (Hpair : forall lo hi chars,
             (lo <= hi)%Z -> (hi <= 0)%Z -> valid_chars chars ->
             random draws (LengthPair lo hi) chars i
             = Return (EmptyString, S i)).
  { intros lo hi chars Hle Hhi Hc.
    assert (Hdraw : Z.to_nat
                      (lo + Z.of_nat (draws i) mod (hi - lo + 1))%Z = 0).
    { pose proof (Z.mod_pos_bound (Z.of_nat (draws i)) (hi - lo + 1)).
      lia. }
    unfold random, randint.
    destruct (Z.ltb_spec hi lo) as [Hlt|_]; [lia|].
    destruct Hc as [->|[s [-> Hs]]].
    - cbn [bind]. rewrite Hdraw. reflexivity.
    - destruct s as [|c s]; [now elim Hs|].
      cbn [bind ensure_string]. rewrite Hdraw. reflexivity. }
  assert (Hfixed : forall n chars,
             (n <= 0)%Z -> valid_chars chars ->
             random draws (LengthValue (PInt n)) chars i
             = Raise (ValueError
                        "random string length must be positive (got %r)")).
  { intros n chars Hn Hc. unfold random. cbn [as_integral].
    destruct (Z.ltb_spec 0 n) as [Hlt|_]; [lia|].
    destruct Hc as [->|[s [-> Hs]]]; [reflexivity|].
    destruct s as [|c s]; [now elim Hs | reflexivity]. }
  split; [|split; [|split]].
  - apply Hpair; [lia | lia | now left].
  - apply Hfixed; [lia | now left].
  - exact Hpair.
  - exact Hfixed.
Qed.

Lemma random_pair_length_unchecked_witness :
  random (fun n => n) (LengthPair (-3) 0) (PStr "abc") 0
  = Return (EmptyString, 1)
  /\ random (fun n => n) (LengthValue (PInt (-3))) (PStr "abc") 0
     = Raise (ValueError "random string length must be positive (got %r)").
Proof.
  destruct (random_pair_length_unchecked (fun n => n) 0) as (_ & _ & H3 & H4).
  split.
  - apply H3; [lia | lia |].
    right. exists "abc". split; [reflexivity | discriminate].
  - apply H4; [lia |].
    right. exists "abc". split; [reflexivity | discriminate].
Defined.

(** ** Replacer *)

(** C6: a replacement given to a replacer that has its mapping, and a
    haystack given to a replacer that has none, are replacement errors
    that leave the replacer as it was. *)
Theorem replacer_lifecycle_errors :
  (forall d r,
      with_ (PStr r) (mk_Replacer (Mapping d))
      = (Raise (ReplacementError "string replacements already provided"),
         mk_Replacer (Mapping d)))
  /\ (forall needles r r',
         let self := snd (with_ (PStr r) (mk_Replacer (Needles needles))) in
         with_ (PStr r') self
         = (Raise (ReplacementError "string replacements already provided"),
            self))
  /\ (forall needles h,
         in_ (PStr h) (mk_Replacer (Needles needles))
         = (Raise (ReplacementError "string replacements not provided"),
            mk_Replacer (Needles needles))).
Proof. repeat split. Qed.

(** ** camel_case *)

(** C3, as the code has it: by default the first word is left as the
    text has it, and each later word is capitalized. *)
Theorem camel_case_default (arg : string) :
  arg <> EmptyString ->
  camel_case (PStr arg) PNone
  = Return (match split_whitespace None None arg with
            | [] => EmptyString
            | first_word :: words =>
                first_word ++ String.concat EmptyString (map capitalize words)
            end).
Proof.
  intros Harg. unfold camel_case. cbn [ensure_string bind].
  destruct arg as [|c t]; [now elim Harg|].
  unfold split, str_split. cbn [ensure_string bind str_maxcount maxsplit_fits negb].
  destruct (split_whitespace None None (String c t)) as [|w ws].
  - reflexivity.
  - cbn [hd_error map set_first bind].
    change (PStr w :: map PStr (map capitalize ws))
      with (map PStr (w :: map capitalize ws)).
    rewrite join_strings. f_equal.
    destruct (map capitalize ws) as [|x l]; [|reflexivity].
    simpl. now rewrite append_empty_r.
Qed.

Lemma camel_case_default_witness :
  camel_case (PStr "hello big world") PNone = Return "helloBigWorld".
Proof.
  apply (camel_case_default "hello big world"). discriminate.
Defined.

(** C3 as stated fails: the default does not capitalize the first
    word. *)
Lemma camel_case_default_counterexample :
  camel_case (PStr "hello world") PNone = Return "helloWorld"
  /\ camel_case (PStr "hello world") PNone <> Return "HelloWorld".
Proof. split; [reflexivity | discriminate]. Qed.

(** *** The order of the branches *)

Lemma insert_by_length_perm (x : string) (xs : list string) :
  Permutation (x :: xs) (insert_by_length x xs).
Proof.
  induction xs as [|y ys IH]; simpl.
  - apply Permutation_refl.
  - destruct (Nat.ltb (String.length x) (String.length y)).
    + apply perm_trans with (y :: x :: ys);
        [apply perm_swap | now apply perm_skip].
    + apply Permutation_refl.
Qed.

Lemma sorted_by_length_desc_perm (xs : list string) :
  Permutation xs (sorted_by_length_desc xs).
Proof.
  induction xs as [|x xs IH]; simpl.
  - apply perm_nil.
  - apply perm_trans with (x :: sorted_by_length_desc xs).
    + now apply perm_skip.
    + apply insert_by_length_perm.
Qed.

Lemma insert_by_length_sorted (x : string) (xs : list string) :
  StronglySorted longer_first xs ->
  StronglySorted longer_first (insert_by_length x xs).
Proof.
  induction 1 as [|y ys Hs IH Hall]; simpl.
  - constructor; constructor.
  - destruct (Nat.ltb_spec (String.length x) (String.length y)) as [Hlt|Hge].
    + constructor; [exact IH|].
      apply (Permutation_Forall (insert_by_length_perm x ys)).
      constructor; [unfold longer_first; lia | exact Hall].
    + constructor; [now constructor|].
      constructor; [exact Hge|].
      revert Hall. apply Forall_impl. unfold longer_first. intros z Hz. lia.
Qed.

Lemma sorted_by_length_desc_sorted (xs : list string) :
  StronglySorted longer_first (sorted_by_length_desc xs).
Proof.
  induction xs as [|x xs IH]; simpl.
  - constructor.
  - now apply insert_by_length_sorted.
Qed.

Lemma sorted_by_length_desc_in (xs : list string) (x : string) :
  In x (sorted_by_length_desc xs) <-> In x xs.
Proof.
  split; apply Permutation_in;
    [apply Permutation_sym|]; apply sorted_by_length_desc_perm.
Qed.

(** *** The first branch that matches *)

Lemma first_branch_some (adv : bool) (bs : list string) (s b : string) :
  first_branch adv bs s = Some b ->
  In b bs /\ String.prefix b s = true
  /\ (adv = true -> b <> EmptyString).
Proof.
  induction bs as [|x bs IH]; simpl; [discriminate|].
  destruct (String.prefix x s
            && negb (adv && (String.length x =? 0)%nat)) eqn:E.
  - intros [= ->]. apply andb_true_iff in E. destruct E as [Hp Hn].
    repeat split; [now left | exact Hp |].
    intros -> ->. simpl in Hn. discriminate.
  - intros H. destruct (IH H) as (Hin & Hp & Hadv). auto.
Qed.

Lemma first_branch_none (bs : list string) (s : string) :
  first_branch false bs s = None ->
  forall b, In b bs -> String.prefix b s = false.
Proof.
  induction bs as [|x bs IH]; simpl; [now intros _ b []|].
  rewrite andb_true_r.
  destruct (String.prefix x s) eqn:E; [discriminate|].
  intros H b [<-|Hin]; [exact E | now apply IH].
Qed.

(** In an order of descending length the first branch that matches is
    a longest one. *)
Lemma first_branch_longest (bs : list string) (s b : string) :
  StronglySorted longer_first bs ->
  first_branch false bs s = Some b ->
  forall b', In b' bs -> String.prefix b' s = true ->
             String.length b' <= String.length b.
Proof.
  induction 1 as [|x bs Hs IH Hall]; simpl; [discriminate|].
  rewrite andb_true_r.
  destruct (String.prefix x s) eqn:E.
  - intros [= <-] b' [<-|Hin] _; [lia|].
    rewrite Forall_forall in Hall. exact (Hall _ Hin).
  - intros H b' [<-|Hin] Hp; [congruence | now apply IH].
Qed.

(** With the longer branches tried first, an empty match means that
    no other branch matches there. *)
Lemma first_branch_advance (bs : list string) (s : string) :
  StronglySorted longer_first bs ->
  first_branch false bs s = Some EmptyString ->
  first_branch true bs s = None.
Proof.
  intros Hs H.
  destruct (first_branch true bs s) as [b|] eqn:E; [|reflexivity].
  destruct (first_branch_some _ _ _ _ E) as (Hin & Hp & Hne).
  pose proof (first_branch_longest _ _ _ Hs H _ Hin Hp) as Hlen.
  destruct b; [now elim Hne | simpl in Hlen; lia].
Qed.

Lemma take_prefix (b s : string) :
  String.prefix b s = true -> take (String.length b) s = b.
Proof.
  revert s. induction b as [|c b IH]; intros s H.
  - now destruct s.
  - destruct s as [|c' s]; simpl in H; [discriminate|].
    destruct (ascii_dec c c') as [->|]; [|discriminate].
    simpl. now rewrite IH.
Qed.

Lemma drop_S (pos : nat) (subject : string) (c : ascii) (t : string) :
  drop pos subject = String c t -> drop (S pos) subject = t.
Proof.
  revert subject. induction pos as [|n IH]; intros subject H.
  - rewrite drop_0 in H. now subst.
  - destruct subject as [|x u]; simpl in H; [discriminate|].
    simpl. now apply IH.
Qed.

Lemma dict_get_in_keys (d : dict) (k : string) :
  In k (dict_keys d) -> exists v, dict_get d k = Some v.
Proof.
  induction d as [|[k' v'] d IH]; simpl; [now intros []|].
  intros H. destruct (String.eqb_spec k' k) as [->|Hne].
  - now exists v'.
  - destruct H as [H|H]; [now elim Hne | now apply IH].
Qed.

(** *** One pass over the haystack *)

Lemma simultaneous_no_needle (h : string) : simultaneous [] h h.
Proof.
  induction h as [|c h IH]; constructor; [now intros k []| exact IH].
Qed.

Section OnePass.

Variable d : dict.
Hypothesis needles_not_empty :
  forall k, In k (dict_keys d) -> k <> EmptyString.

Let branches := sorted_by_length_desc (dict_keys d).

Let do_replace := fun m : string =>
  match dict_get d m with
  | Some v => Return v
  | None => Raise (KeyError "%r")
  end.

Lemma branch_in_keys (b : string) :
  In b branches <-> In b (dict_keys d).
Proof. apply sorted_by_length_desc_in. Qed.

Lemma branch_is_needle (adv : bool) (s b : string) :
  first_branch adv branches s = Some b ->
  exists k v, b = String k v.
Proof.
  intros H. destruct (first_branch_some _ _ _ _ H) as (Hin & _ & _).
  apply branch_in_keys in Hin.
  pose proof (needles_not_empty _ Hin) as Hne.
  destruct b as [|k v]; [now elim Hne | now exists k, v].
Qed.

(** The scan behind [re.sub], for the pattern [in_] builds: from any
    position it returns, and what it returns is the rest of the
    haystack with the needles replaced simultaneously. *)
Lemma re_sub_scan_simultaneous (text subject : string) :
  forall s pos skip,
    drop pos subject = s ->
    skip <= String.length s ->
    exists out,
      re_sub_scan (re_compile_literals text branches) do_replace
        subject skip pos s = Return out
      /\ simultaneous d (drop skip s) out.
Proof.
  induction s as [|c t IH]; intros pos skip Hpos Hskip.
  - assert (skip = 0) as -> by (simpl in Hskip; lia).
    cbn [re_sub_scan match_at re_compile_literals]. rewrite Hpos.
    destruct (first_branch false branches EmptyString) as [b|] eqn:E.
    + destruct (branch_is_needle _ _ _ E) as (k & v & ->).
      destruct (first_branch_some _ _ _ _ E) as (_ & Hp & _).
      simpl in Hp. discriminate.
    + exists EmptyString. split; [reflexivity | constructor].
  - destruct skip as [|n].
    + cbn [re_sub_scan match_at re_compile_literals]. rewrite Hpos.
      rewrite drop_0.
      destruct (first_branch false branches (String c t)) as [b|] eqn:E.
      * destruct (branch_is_needle _ _ _ E) as (k & v & ->).
        destruct (first_branch_some _ _ _ _ E) as (Hin & Hp & _).
        apply branch_in_keys in Hin.
        destruct (dict_get_in_keys _ _ Hin) as [w Hw].
        pose proof (prefix_length _ _ Hp) as Hlen.
        destruct (IH (S pos) (String.length v)) as (out & Hout & Hsim).
        { now apply drop_S with c. }
        { simpl in Hlen. lia. }
        exists (w ++ out). split.
        -- cbn [option_map String.length].
           change (S (String.length v)) with (String.length (String k v)).
           rewrite (take_prefix _ _ Hp). unfold do_replace at 1.
           rewrite Hw. cbn [bind]. cbn [String.length].
           rewrite Hout. reflexivity.
        -- rewrite <- (prefix_drop _ _ Hp).
           apply sim_needle; [discriminate | exact Hw | | exact Hsim].
           intros k' Hk' Hpk'. rewrite (prefix_drop _ _ Hp) in Hpk'.
           apply (first_branch_longest branches (String c t));
             [apply sorted_by_length_desc_sorted | exact E | | exact Hpk'].
           now apply branch_in_keys.
      * destruct (IH (S pos) 0) as (out & Hout & Hsim).
        { now apply drop_S with c. }
        { lia. }
        exists (String c out). split.
        -- cbn [option_map]. rewrite Hout. reflexivity.
        -- rewrite drop_0 in Hsim. apply sim_keep; [|exact Hsim].
           intros k Hk. apply (first_branch_none branches); [exact E|].
           now apply branch_in_keys.
    + destruct (IH (S pos) n) as (out & Hout & Hsim).
      { now apply drop_S with c. }
      { simpl in Hskip. lia. }
      exists out. split; [exact Hout | exact Hsim].
Qed.

End OnePass.

(** The scan behind [str.replace] for a single, non-empty needle. *)
Lemma replace_scan_simultaneous (k v : string) :
  k <> EmptyString ->
  forall s skip,
    skip <= String.length s ->
    simultaneous [(k, v)] (drop skip s) (replace_scan k v skip s).
Proof.
  intros Hk. induction s as [|c t IH]; intros skip Hskip.
  - assert (skip = 0) as -> by (simpl in Hskip; lia). constructor.
  - destruct skip as [|n]; cbn [replace_scan].
    + rewrite drop_0. destruct (String.prefix k (String c t)) eqn:E.
      * pose proof (prefix_length _ _ E) as Hlen.
        rewrite <- (prefix_drop _ _ E) at 1.
        destruct k as [|x k']; [now elim Hk|].
        apply sim_needle.
        -- discriminate.
        -- cbn [dict_get]. now rewrite String.eqb_refl.
        -- intros k2 [<-|[]] _. apply Nat.le_refl.
        -- cbn [String.length] in *.
           replace (S (String.length k') - 1) with (String.length k') by lia.
           change (drop (S (String.length k')) (String c t))
             with (drop (String.length k') t).
           apply IH. lia.
      * apply sim_keep.
        -- intros k2 [<-|[]]. exact E.
        -- rewrite <- (drop_0 t) at 1. apply IH. lia.
    + apply IH. simpl in Hskip. lia.
Qed.

(** A complete replacer whose needles are not empty returns, for every
    haystack, the simultaneous replacement, and is left as it was. *)
Lemma in__simultaneous (d : dict) (h : string) :
  (forall k, In k (dict_keys d) -> k <> EmptyString) ->
  exists out,
    in_ (PStr h) (mk_Replacer (Mapping d))
    = (Return out, mk_Replacer (Mapping d))
    /\ simultaneous d h out.
Proof.
  intros Hkeys. unfold in_. cbn [ensure_string _replacements].
  destruct d as [|[k v] [|kv d']].
  - exists h. split; [reflexivity | apply simultaneous_no_needle].
  - exists (str_replace h k v). split; [reflexivity|].
    assert (Hk : k <> EmptyString) by (apply Hkeys; now left).
    unfold str_replace. destruct k as [|x k']; [now elim Hk|].
    rewrite <- (drop_0 h) at 1.
    apply replace_scan_simultaneous; [discriminate | lia].
  - rewrite join_strings. cbn [bind]. unfold re_sub.
    destruct (re_sub_scan_simultaneous _ Hkeys
                (String.concat "|"
                   (map re_escape
                      (sorted_by_length_desc (dict_keys ((k, v) :: kv :: d')))))
                h h 0 0) as (out & Hout & Hsim).
    + apply drop_0.
    + lia.
    + exists out. rewrite drop_0 in Hsim. split; [|exact Hsim].
      f_equal. exact Hout.
Qed.

(** *** The simultaneous replacement is unique *)

Lemma dict_get_some_in_keys (d : dict) (k v : string) :
  dict_get d k = Some v -> In k (dict_keys d).
Proof.
  induction d as [|[k' v'] d IH]; simpl; [discriminate|].
  destruct (String.eqb_spec k' k) as [->|_]; [now left | auto].
Qed.

Lemma append_same_length (a b x y : string) :
  String.length a = String.length b ->
  a ++ x = b ++ y -> a = b /\ x = y.
Proof.
  revert b. induction a as [|c a IH]; intros [|c' b] Hlen H;
    simpl in Hlen; try discriminate.
  - now split.
  - simpl in H. injection H as -> H.
    destruct (IH b) as [-> ->]; [lia | exact H | now split].
Qed.

Lemma simultaneous_unique (d : dict) (h out : string) :
  simultaneous d h out ->
  forall out', simultaneous d h out' -> out = out'.
Proof.
  induction 1 as [|c h out Hnone _ IH|k v h out Hk Hget Hlong _ IH];
    intros out' H'.
  - inversion H' as [| |k' v' h' o' Hk' _ _ _ Heq]; [reflexivity|].
    destruct k'; [now elim Hk' | discriminate Heq].
  - inversion H' as [|c' h' o' _ Hrest|k' v' h' o' Hk' Hget' _ _ Heq].
    + f_equal. now apply IH.
    + exfalso.
      pose proof (Hnone k' (dict_get_some_in_keys _ _ _ Hget')) as Hp.
      rewrite <- Heq, prefix_append in Hp. discriminate.
  - remember (k ++ h) as s eqn:Hs.
    destruct H' as [|c' h' o' Hnone' _|k' v' h' o' Hk' Hget' Hlong' Hrest].
    + destruct k; [now elim Hk | discriminate Hs].
    + exfalso.
      pose proof (Hnone' k (dict_get_some_in_keys _ _ _ Hget)) as Hp.
      rewrite Hs, prefix_append in Hp. discriminate.
    + assert (Hlen : String.length k = String.length k').
      { apply Nat.le_antisymm.
        - apply Hlong'; [now apply dict_get_some_in_keys with v|].
          rewrite Hs. apply prefix_append.
        - apply Hlong; [now apply dict_get_some_in_keys with v'|].
          apply prefix_append. }
      symmetry in Hs.
      destruct (append_same_length _ _ _ _ Hlen Hs) as [-> ->].
      assert (v = v') as -> by congruence.
      f_equal. now apply IH.
Qed.

(** C1: the table of "foo" and "foobar" turns "foobar baz foo" into
    "Y baz X", in whichever order the needles were entered.  The
    branches of the pattern are the needles in an order of descending
    length, so the branch that matches first is a longest needle that
    occurs at that position. *)
Theorem replacer_longer_needle_wins :
  in_ (PStr "foobar baz foo")
      (mk_Replacer (Mapping [("foo", "X"); ("foobar", "Y")]))
  = (Return "Y baz X", mk_Replacer (Mapping [("foo", "X"); ("foobar", "Y")]))
  /\ replace (NeedleMapping [("foobar", "Y"); ("foo", "X")]) PNone
       (PStr "foobar baz foo")
     = Return (Replaced "Y baz X")
  /\ (forall needles,
         StronglySorted longer_first (sorted_by_length_desc needles)
         /\ Permutation needles (sorted_by_length_desc needles))
  /\ (forall needles s b,
         first_branch false (sorted_by_length_desc needles) s = Some b ->
         forall b', In b' needles -> String.prefix b' s = true ->
                    String.length b' <= String.length b).
Proof.
  split; [reflexivity|]. split; [reflexivity|]. split.
  - intros needles. split.
    + apply sorted_by_length_desc_sorted.
    + apply sorted_by_length_desc_perm.
  - intros needles s b H b' Hin Hp.
    apply (first_branch_longest (sorted_by_length_desc needles) s);
      [apply sorted_by_length_desc_sorted | exact H | | exact Hp].
    now apply sorted_by_length_desc_in.
Qed.

Lemma replacer_longer_needle_wins_witness :
  String.length "foo" <= String.length "foobar".
Proof.
  apply (proj2 (proj2 (proj2 replacer_longer_needle_wins))
           ["foo"; "foobar"] "foobar baz foo" "foobar").
  - reflexivity.
  - simpl. now left.
  - reflexivity.
Defined.

(** C2: several needles are replaced in one pass over the haystack as
    it was given.  For every table of non-empty needles and every
    haystack the replacer returns, is left as it was, and what it
    returns is the one simultaneous replacement: text that was written
    is never read again. *)
Theorem replacement_is_simultaneous :
  replace (NeedleIterable [ItemValue (PStr "a"); ItemValue (PStr "b")])
    (PStr "z") (PStr "ab cab")
  = Return (Replaced "zz czz")
  /\ in_ (PStr "ab") (mk_Replacer (Mapping [("a", "b"); ("b", "a")]))
     = (Return "ba", mk_Replacer (Mapping [("a", "b"); ("b", "a")]))
  /\ (forall d h,
         (forall k, In k (dict_keys d) -> k <> EmptyString) ->
         exists out,
           in_ (PStr h) (mk_Replacer (Mapping d))
           = (Return out, mk_Replacer (Mapping d))
           /\ simultaneous d h out
           /\ forall out', simultaneous d h out' -> out' = out).
Proof.
  split; [reflexivity|]. split; [reflexivity|].
  intros d h Hkeys.
  destruct (in__simultaneous d h Hkeys) as (out & Hout & Hsim).
  exists out. repeat split; [exact Hout | exact Hsim |].
  intros out' H'. symmetry. now apply (simultaneous_unique d h).
Qed.

Lemma replacement_is_simultaneous_witness :
  exists out,
    in_ (PStr "ab") (mk_Replacer (Mapping [("a", "b"); ("b", "a")]))
    = (Return out, mk_Replacer (Mapping [("a", "b"); ("b", "a")]))
    /\ simultaneous [("a", "b"); ("b", "a")] "ab" out
    /\ forall out', simultaneous [("a", "b"); ("b", "a")] "ab" out' ->
                    out' = out.
Proof.
  apply (proj2 (proj2 replacement_is_simultaneous)).
  intros k [<-|[<-|[]]]; discriminate.
Defined.

(** * Further properties *)

(** ** trim, by suffix *)

Lemma take_append (s x : string) : take (String.length s) (s ++ x) = s.
Proof. induction s as [|c s IH]; simpl; [now destruct x | now rewrite IH]. Qed.

Lemma take_drop (n : nat) (s : string) : take n s ++ drop n s = s.
Proof.
  revert s. induction n as [|n IH]; intros [|c s]; simpl; try reflexivity.
  now rewrite IH.
Qed.

Lemma endswith_append (s x : string) : endswith (s ++ x) x = true.
Proof.
  unfold endswith. rewrite length_append.
  replace (String.length s + String.length x - String.length x)
    with (String.length s) by lia.
  rewrite drop_append, String.eqb_refl.
  apply andb_true_iff. split; [apply Nat.leb_le; lia | reflexivity].
Qed.

Lemma endswith_split (s x : string) :
  endswith s x = true -> exists r, s = r ++ x.
Proof.
  unfold endswith. intros H. apply andb_true_iff in H. destruct H as [_ H].
  apply String.eqb_eq in H.
  set (n := String.length s - String.length x) in *.
  exists (take n s). rewrite <- H. symmetry. apply take_drop.
Qed.

(** X1: removing a suffix that is there leaves exactly what precedes it, the
    empty suffix included; a suffix that is not there is an error when
    [strict], and leaves the string as it is otherwise. *)
Theorem trim_suffix_law :
  (forall (s x : string) (strict : bool),
      trim (PStr (s ++ x)) PNone (PStr x) strict = Return s)
  /\ (forall s x : string,
         (forall r, s <> r ++ x) ->
         trim (PStr s) PNone (PStr x) true
         = Raise (ValueError "string %r does not end with expected suffix %r")
         /\ trim (PStr s) PNone (PStr x) false = Return s).
Proof.
  split.
  - intros s x strict. unfold trim. simpl. rewrite endswith_append.
    destruct x as [|c x]; [now rewrite append_empty_r|].
    rewrite length_append.
    replace (String.length s + String.length (String c x)
             - String.length (String c x)) with (String.length s) by lia.
    now rewrite take_append.
  - intros s x H. unfold trim. simpl.
    destruct (endswith s x) eqn:E.
    + destruct (endswith_split _ _ E) as [r Hr]. now elim (H r).
    + now split.
Qed.

Lemma trim_suffix_law_witness :
  trim (PStr "foobar") PNone (PStr "baz") true
  = Raise (ValueError "string %r does not end with expected suffix %r")
  /\ trim (PStr "foobar") PNone (PStr "baz") false = Return "foobar".
Proof.
  apply (proj2 trim_suffix_law "foobar" "baz").
  intros r H.
  assert (L : String.length "foobar" = String.length (r ++ "baz"))
    by now rewrite <- H.
  rewrite length_append in L. simpl in L.
  destruct r as [|a [|b [|c [|? ?]]]]; simpl in L; try lia.
  simpl in H. discriminate H.
Defined.

(** ** split: the items *)

Lemma snoc_not_empty (w : string) (c : ascii) : snoc w c <> EmptyString.
Proof. destruct w; discriminate. Qed.

Lemma all_chars_snoc (p : ascii -> bool) (w : string) (c : ascii) :
  all_chars p (snoc w c) = all_chars p w && p c.
Proof.
  induction w as [|x w IH]; simpl.
  - now rewrite andb_true_r.
  - unfold snoc in IH. rewrite IH. now rewrite andb_assoc.
Qed.

Lemma split_whitespace_words (s : string) :
  forall word,
    match word with Some w => is_word w | None => True end ->
    Forall is_word (split_whitespace None word s).
Proof.
  induction s as [|c t IH]; intros [w|] Hw; cbn [split_whitespace exhausted].
  - now constructor.
  - constructor.
  - destruct (isspace c) eqn:E.
    + constructor; [exact Hw | now apply IH].
    + apply IH. destruct Hw as [_ Hw]. split; [apply snoc_not_empty|].
      rewrite all_chars_snoc, Hw, E. reflexivity.
  - destruct (isspace c) eqn:E.
    + now apply IH.
    + apply IH. split; [discriminate|]. simpl. now rewrite E.
Qed.

(** X3: without a limit, the white-space split of any string gives words:
    no item is empty and no item holds white space. *)
Theorem split_whitespace_gives_words (s : string) :
  exists words,
    split (PStr s) ByNone None = Return words /\ Forall is_word words.
Proof.
  exists (split_whitespace None None s). split; [reflexivity|].
  now apply split_whitespace_words.
Qed.

Lemma split_whitespace_count (s : string) :
  forall n word,
    List.length (split_whitespace (Some n) word s)
    <= match word with Some _ => n + 2 | None => n + 1 end.
Proof.
  induction s as [|c t IH]; intros n [w|]; cbn [split_whitespace].
  - simpl. lia.
  - destruct n; simpl; lia.
  - destruct (isspace c).
    + cbn [List.length]. specialize (IH n None). simpl in IH. lia.
    + apply (IH n (Some (snoc w c))).
  - destruct n as [|m]; cbn [exhausted].
    + destruct (lstrip (String c t)); simpl; lia.
    + destruct (isspace c).
      * apply (IH (S m) None).
      * cbn [count_pred option_map pred].
        specialize (IH m (Some (String c EmptyString))). simpl in IH. lia.
Qed.

Lemma split_sep_count (sep : string) (s : string) :
  forall n skip cur,
    List.length (split_sep sep (Some n) skip cur s) <= n + 1.
Proof.
  induction s as [|c t IH]; intros n skip cur; cbn [split_sep].
  - simpl. lia.
  - destruct skip as [|k]; [|apply IH].
    destruct n as [|m]; cbn [exhausted negb andb].
    + apply IH.
    + destruct (String.prefix sep (String c t)); [|apply IH].
      cbn [List.length count_pred option_map pred].
      specialize (IH m (String.length sep - 1) EmptyString). lia.
Qed.

Lemma re_split_scan_count (r : Regex) (subject : string) (s : string) :
  forall n skip cur pos,
    List.length (re_split_scan r subject (Some n) skip cur pos s) <= n + 1.
Proof.
  induction s as [|c t IH]; intros n skip cur pos.
  - destruct skip as [|k]; cbn [re_split_scan]; [|simpl; lia].
    destruct n as [|m]; cbn [exhausted]; [simpl; lia|].
    destruct (match_at r false subject pos) as [[|k]|]; [| |simpl; lia].
    + cbn [count_pred option_map pred].
      destruct m as [|m']; cbn [exhausted]; [simpl; lia|].
      destruct (match_at r true subject pos) as [[|k]|]; simpl; lia.
    + simpl. lia.
  - destruct skip as [|k]; cbn [re_split_scan]; [|apply IH].
    destruct n as [|m]; cbn [exhausted]; [simpl; lia|].
    destruct (match_at r false subject pos) as [[|k]|]; [| |apply IH].
    + cbn [count_pred option_map pred].
      destruct m as [|m']; cbn [exhausted]; [simpl; lia|].
      destruct (match_at r true subject pos) as [[|k]|];
        cbn [List.length pred];
        try (specialize (IH (S m') 0 (String c EmptyString) (S pos)); lia).
      specialize (IH m' k EmptyString (S pos)). lia.
    + cbn [List.length count_pred option_map pred].
      specialize (IH m k EmptyString (S pos)). lia.
Qed.

(** X5: whichever delimiter it is given, other than a compiled pattern
    of its caller, a [split] that returns with a limit of [maxsplit]
    splits, not below zero, returns at most [maxsplit + 1] items. *)
Theorem split_maxsplit_bounds_items (s : pyval) (by_ : delimiter)
    (maxsplit : Z) (items : list string) :
  (forall r, by_ <> ByRegex r) ->
  (0 <= maxsplit)%Z ->
  split s by_ (Some maxsplit) = Return items ->
  (Z.of_nat (List.length items) <= maxsplit + 1)%Z.
Proof.
  intros Hby Hm H.
  assert (Hstr : forall s by', str_split s by' (Some maxsplit) = Return items ->
                 List.length items <= Z.to_nat maxsplit + 1).
  { intros s' by' H'. unfold str_split in H'.
    destruct (maxsplit_fits (Some maxsplit)); [|discriminate H'].
    cbn [negb] in H'. unfold str_maxcount in H'.
    destruct (Z.ltb_spec maxsplit 0) as [Hlt|_]; [lia|].
    destruct by' as [[|c d]|]; [discriminate H' | |];
      injection H' as <-.
    - apply split_sep_count.
    - apply (split_whitespace_count s' _ None). }
  assert (Hre : forall s r, split_regex s r (Some maxsplit) = Return items ->
                List.length items <= Z.to_nat maxsplit + 1).
  { intros s' r H'. unfold split_regex in H'.
    destruct (pattern r); [discriminate H'|].
    destruct maxsplit as [|m|m]; [injection H' as <-; simpl; lia | | lia].
    destruct (ssize_t_fits (Z.pos m)); [|discriminate H'].
    injection H' as <-. unfold re_split, re_maxcount. cbn [Z.eqb Z.ltb Z.compare].
    apply re_split_scan_count. }
  assert (Hgoal : List.length items <= Z.to_nat maxsplit + 1); [|lia].
  unfold split in H. destruct s as [| | |s]; try discriminate H.
  cbn [ensure_string bind] in H.
  destruct by_ as [|d|r|ls|v]; try discriminate H.
  - now apply (Hstr s None).
  - now apply (Hstr s (Some d)).
  - now elim (Hby r).
  - destruct ls as [|x ls]; [discriminate H|].
    destruct (mapM ensure_string (x :: ls)) as [literals|e];
      [|discriminate H].
    cbn [bind] in H. destruct s as [|c t].
    + injection H as <-. simpl. lia.
    + rewrite join_strings in H. cbn [bind] in H. now apply Hre in H.
Qed.

Lemma split_maxsplit_bounds_items_witness :
  (Z.of_nat (List.length ["a"; "b"; "c,d"]) <= 2 + 1)%Z.
Proof.
  apply (split_maxsplit_bounds_items (PStr "a,b,c,d") (ByString ",") 2);
    [discriminate | lia | reflexivity].
Defined.

Lemma snoc_split (cur : string) (c : ascii) :
  forall a b,
    snoc cur c = a ++ b -> b <> EmptyString ->
    exists b0, b = snoc b0 c /\ cur = a ++ b0.
Proof.
  unfold snoc. induction cur as [|y cur IH]; intros a b H Hb.
  - destruct a as [|x a]; simpl in H.
    + exists EmptyString. now split.
    + injection H as _ H. destruct a; destruct b; try discriminate H.
      now elim Hb.
  - destruct a as [|x a]; simpl in H.
    + exists (String y cur). now split.
    + injection H as <- H. destruct (IH _ _ H Hb) as (b0 & -> & ->).
      exists b0. now split.
Qed.

Lemma separator_free_item (sep cur s : string) :
  sep <> EmptyString ->
  separator_free sep cur s ->
  ~ contains cur sep.
Proof.
  intros Hsep Hfree (a & b & ->).
  specialize (Hfree a (sep ++ b) eq_refl).
  rewrite append_assoc, prefix_append in Hfree.
  assert (Hne : sep ++ b <> EmptyString) by (destruct sep; [now elim Hsep | discriminate]).
  specialize (Hfree Hne). discriminate.
Qed.

Lemma split_sep_separator_free (sep : string) :
  sep <> EmptyString ->
  forall s skip cur,
    (skip = 0 -> separator_free sep cur s) ->
    (skip <> 0 -> cur = EmptyString) ->
    Forall (fun item => ~ contains item sep) (split_sep sep None skip cur s).
Proof.
  intros Hsep. induction s as [|c t IH]; intros skip cur Hfree Hskip;
    cbn [split_sep].
  - constructor; [|constructor].
    destruct skip as [|k].
    + apply (separator_free_item sep cur EmptyString Hsep). now apply Hfree.
    + rewrite Hskip by discriminate. intros (a & b & H).
      destruct a; [destruct sep; [now elim Hsep | discriminate H]
                  | discriminate H].
  - destruct skip as [|k].
    + specialize (Hfree eq_refl). cbn [exhausted negb andb].
      destruct (String.prefix sep (String c t)) eqn:E.
      * constructor.
        -- now apply (separator_free_item sep cur (String c t) Hsep).
        -- apply IH.
           ++ intros _ a b Hab Hb. destruct a; destruct b;
                try discriminate Hab. now elim Hb.
           ++ reflexivity.
      * apply IH; [|now intros H].
        intros _ a b Hab Hb.
        destruct (snoc_split _ _ _ _ Hab Hb) as (b0 & -> & ->).
        rewrite snoc_append. destruct b0 as [|x b0]; [exact E|].
        apply (Hfree a (String x b0)); [reflexivity | discriminate].
    + apply IH; [|intros _; apply Hskip; discriminate].
      intros _ a b Hab Hb. rewrite Hskip in Hab by discriminate.
      destruct a; destruct b; try discriminate Hab. now elim Hb.
Qed.

(** X4: without a limit, no item of a split on a literal holds the
    literal. *)
Theorem split_items_without_separator (s d : string) :
  d <> EmptyString ->
  exists items,
    split (PStr s) (ByString d) None = Return items
    /\ Forall (fun item => ~ contains item d) items.
Proof.
  intros Hd. exists (split_sep d None 0 EmptyString s). split.
  - unfold split, str_split. simpl. destruct d; [now elim Hd | reflexivity].
  - apply split_sep_separator_free; [exact Hd | | now intros H].
    intros _ a b Hab Hb. destruct a; destruct b; try discriminate Hab.
    now elim Hb.
Qed.

Lemma split_items_without_separator_witness :
  exists items,
    split (PStr "aaa,,b") (ByString ",") None = Return items
    /\ Forall (fun item => ~ contains item ",") items.
Proof.
  apply (split_items_without_separator "aaa,,b" ","). discriminate.
Defined.

(** X6: the round trip of split and join on a literal holds under every
    limit on the number of splits that fits a C [ssize_t]. *)
Theorem join_split_roundtrip_any_limit (s d : string) (maxsplit : option Z) :
  d <> EmptyString ->
  within_ssize_t maxsplit ->
  (words <- split (PStr s) (ByString d) maxsplit ;;
   join (PStr d) (map PStr words) no_kwargs) = Return s.
Proof.
  intros Hd Hm. unfold split. cbn [ensure_string bind].
  rewrite (str_split_fits _ _ _ Hm).
  destruct d as [|c d']; [now elim Hd|].
  cbn [bind]. rewrite join_strings. f_equal.
  rewrite concat_split_sep by (discriminate || (simpl; lia)).
  now rewrite drop_0.
Qed.

Lemma join_split_roundtrip_any_limit_witness :
  (words <- split (PStr "a,b,c") (ByString ",") (Some 1%Z) ;;
   join (PStr ",") (map PStr words) no_kwargs) = Return "a,b,c".
Proof.
  apply (join_split_roundtrip_any_limit "a,b,c" "," (Some 1%Z));
    [discriminate | simpl; lia].
Defined.

(** ** split: a collection of one literal *)

Lemma first_branch_single (d s : string) :
  d <> EmptyString ->
  first_branch false [d] s = if String.prefix d s then Some d else None.
Proof.
  intros _. cbn [first_branch]. rewrite andb_true_r.
  now destruct (String.prefix d s).
Qed.

Lemma re_split_scan_single (text d subject : string) :
  d <> EmptyString ->
  forall s n skip cur pos,
    drop pos subject = s ->
    re_split_scan (re_compile_literals text [d]) subject n skip cur pos s
    = split_sep d n skip cur s.
Proof.
  intros Hd. induction s as [|c t IH]; intros n skip cur pos Hpos.
  - destruct skip as [|k]; cbn [re_split_scan split_sep]; [|reflexivity].
    destruct (exhausted n); [now rewrite append_empty_r|].
    cbn [match_at re_compile_literals]. rewrite Hpos.
    rewrite first_branch_single by exact Hd.
    destruct d; [now elim Hd | reflexivity].
  - destruct skip as [|k]; cbn [re_split_scan split_sep].
    + destruct (exhausted n) eqn:En.
      * cbn [negb andb].
        destruct n as [[|m]|]; try discriminate En.
        now rewrite split_sep_exhausted, snoc_append.
      * cbn [negb andb match_at re_compile_literals]. rewrite Hpos.
        rewrite first_branch_single by exact Hd.
        destruct (String.prefix d (String c t)) eqn:E; cbn [option_map].
        -- destruct d as [|x d']; [now elim Hd|].
           cbn [String.length].
           replace (S (String.length d') - 1) with (String.length d') by lia.
           f_equal. apply IH. now apply drop_S with c.
        -- apply IH. now apply drop_S with c.
    + apply IH. now apply drop_S with c.
Qed.

(** X7: splitting a string on a collection of one non-empty literal is
    splitting it on that literal, without a limit and with any limit
    that is not negative and fits a C [ssize_t]. *)
Theorem split_single_literal_collection (s d : string) (maxsplit : option Z) :
  d <> EmptyString ->
  match maxsplit with Some m => (0 <= m < 2 ^ 63)%Z | None => True end ->
  split (PStr s) (ByIterable [PStr d]) maxsplit
  = split (PStr s) (ByString d) maxsplit.
Proof.
  intros Hd Hm.
  assert (Hw : within_ssize_t maxsplit).
  { destruct maxsplit as [m|]; [cbn [within_ssize_t]; lia | exact I]. }
  unfold split. cbn [ensure_string bind mapM].
  rewrite (str_split_fits _ _ _ Hw).
  destruct s as [|c t].
  - destruct d; [now elim Hd | reflexivity].
  - change [PStr (re_escape d)] with (map PStr [re_escape d]).
    rewrite join_strings. cbn [bind String.concat map].
    unfold split_regex. cbn [pattern re_compile_literals].
    destruct (re_escape d) eqn:Ee;
      [apply re_escape_empty in Ee; now elim Hd|].
    clear Ee. destruct d as [|x d']; [now elim Hd|].
    destruct maxsplit as [m|].
    + destruct m as [|m|m]; [| |lia].
      * cbn [str_maxcount Z.ltb Z.compare Z.to_nat].
        now rewrite split_sep_exhausted.
      * rewrite (proj2 (ssize_t_fits_iff (Z.pos m))) by exact Hw.
        f_equal. unfold re_split, re_maxcount, str_maxcount.
        cbn [Z.eqb Z.ltb Z.compare].
        apply re_split_scan_single; [discriminate | reflexivity].
    + f_equal. unfold re_split, re_maxcount, str_maxcount.
      cbn [Z.eqb]. apply re_split_scan_single; [discriminate | reflexivity].
Qed.

Lemma split_single_literal_collection_witness :
  split (PStr "a.b.c") (ByIterable [PStr "."]) (Some 1%Z)
  = split (PStr "a.b.c") (ByString ".") (Some 1%Z).
Proof.
  apply (split_single_literal_collection "a.b.c" "." (Some 1%Z));
    [discriminate | simpl; lia].
Defined.

(** ** join: the error policies *)

Lemma mapM_ensure_string_all (items : list pyval) :
  forallb is_string items = true ->
  mapM ensure_string items = Return (filter_strings items).
Proof.
  induction items as [|x items IH]; simpl; [reflexivity|].
  destruct x; simpl; try discriminate.
  intros H. now rewrite (IH H).
Qed.

Lemma mapM_ensure_string_some (items : list pyval) :
  forallb is_string items = false ->
  mapM ensure_string items = Raise (TypeError "expected a string, got %s").
Proof.
  induction items as [|x items IH]; simpl; [discriminate|].
  destruct x; simpl; try reflexivity.
  intros H. now rewrite (IH H).
Qed.

(** X11: under the default policy the join is returned exactly when every
    element is a string; one element that is not a string makes it a
    [TypeError], wherever it stands. *)
Theorem join_raise_policy (d : string) (items : list pyval) :
  (forallb is_string items = true ->
   join (PStr d) items no_kwargs
   = Return (String.concat d (filter_strings items)))
  /\ (forallb is_string items = false ->
      join (PStr d) items no_kwargs
      = Raise (TypeError "expected a string, got %s")).
Proof.
  split; intros H; unfold join; simpl.
  - now rewrite (mapM_ensure_string_all _ H).
  - now rewrite (mapM_ensure_string_some _ H).
Qed.

Lemma join_raise_policy_witness :
  join (PStr ", ") [PStr "a"; PStr "b"] no_kwargs = Return "a, b"
  /\ join (PStr ", ") [PStr "a"; PNone; PStr "b"] no_kwargs
     = Raise (TypeError "expected a string, got %s").
Proof.
  split.
  - apply (proj1 (join_raise_policy ", " [PStr "a"; PStr "b"])). reflexivity.
  - apply (proj2 (join_raise_policy ", " [PStr "a"; PNone; PStr "b"])).
    reflexivity.
Defined.

Lemma filter_strings_map (l : list string) : filter_strings (map PStr l) = l.
Proof. induction l as [|x l IH]; simpl; [reflexivity | now rewrite IH]. Qed.

Lemma map_py_str_strings (l : list string) : map py_str (map PStr l) = l.
Proof. induction l as [|x l IH]; simpl; [reflexivity | now rewrite IH]. Qed.

Lemma mapM_on_strings (g : pyval -> result string) (l : list string) :
  (forall x, g (PStr x) = Return x) -> mapM g (map PStr l) = Return l.
Proof.
  intros Hg. induction l as [|x l IH]; simpl; [reflexivity|].
  now rewrite Hg, IH.
Qed.

(** X12: the policies differ on the elements that are not strings only: a
    sequence of strings is joined the same way under each of them, and a
    replacement function is not called. *)
Theorem join_policies_agree_on_strings (d : string) (l : list string) :
  join (PStr d) (map PStr l) (errors_ (PStr "raise"))
  = Return (String.concat d l)
  /\ join (PStr d) (map PStr l) (errors_ (PStr "ignore"))
     = Return (String.concat d l)
  /\ join (PStr d) (map PStr l) (errors_ (PStr "cast"))
     = Return (String.concat d l)
  /\ (forall w,
         join (PStr d) (map PStr l)
           (mk_join_kwargs (Some (PStr "replace")) (Some (WithValue (PStr w))))
         = Return (String.concat d l))
  /\ (forall f,
         join (PStr d) (map PStr l)
           (mk_join_kwargs (Some (PStr "replace")) (Some (WithCallable f)))
         = Return (String.concat d l)).
Proof.
  unfold join. simpl. repeat split.
  - now rewrite mapM_ensure_string.
  - now rewrite filter_strings_map.
  - now rewrite map_py_str_strings.
  - intros w. now rewrite mapM_on_strings.
  - intros f. now rewrite mapM_on_strings.
Qed.

Lemma mapM_total {A B : Type} (g : A -> result B) (h : A -> B)
    (xs : list A) :
  (forall x, g x = Return (h x)) -> mapM g xs = Return (map h xs).
Proof.
  intros Hg. induction xs as [|x xs IH]; simpl; [reflexivity|].
  now rewrite Hg, IH.
Qed.

(** X13: the policy of replacement.  With a fixed string it never fails: the
    strings are kept and the string is put for every other element.
    Without [with_] it is a [ValueError], and with a [with_] that is
    neither a string nor a function a [TypeError], even when no element
    is to be replaced. *)
Theorem join_replace_policy (d : string) (items : list pyval) :
  (forall w,
      join (PStr d) items
        (mk_join_kwargs (Some (PStr "replace")) (Some (WithValue (PStr w))))
      = Return (String.concat d (map (replaced_by w) items)))
  /\ join (PStr d) items (mk_join_kwargs (Some (PStr "replace")) None)
     = Raise (ValueError
        "'replace' error policy requires specifying replacement through with_=")
  /\ (forall v,
         is_string v = false ->
         join (PStr d) items
           (mk_join_kwargs (Some (PStr "replace")) (Some (WithValue v)))
         = Raise (TypeError
                    "error replacement must be a string or function, got %s")).
Proof.
  split; [|split].
  - intros w. unfold join. simpl.
    rewrite (mapM_total _ (replaced_by w)); [reflexivity|].
    now intros [| | |x].
  - reflexivity.
  - intros v Hv. unfold join. simpl. destruct v; try reflexivity.
    discriminate Hv.
Qed.

Lemma join_replace_policy_witness :
  join (PStr "-") [PStr "a"]
    (mk_join_kwargs (Some (PStr "replace")) (Some (WithValue (PInt 0))))
  = Raise (TypeError "error replacement must be a string or function, got %s").
Proof.
  apply (proj2 (proj2 (join_replace_policy "-" [PStr "a"])) (PInt 0)).
  reflexivity.
Defined.

(** ** camel_case *)

Lemma isspace_upper_char (c : ascii) : isspace (upper_char c) = isspace c.
Proof. destruct c as [[] [] [] [] [] [] [] []]; reflexivity. Qed.

Lemma isspace_lower_char (c : ascii) : isspace (lower_char c) = isspace c.
Proof. destruct c as [[] [] [] [] [] [] [] []]; reflexivity. Qed.

Lemma lower_char_idempotent (c : ascii) :
  lower_char (lower_char c) = lower_char c.
Proof. destruct c as [[] [] [] [] [] [] [] []]; reflexivity. Qed.

Lemma all_chars_append (p : ascii -> bool) (a b : string) :
  all_chars p (a ++ b) = all_chars p a && all_chars p b.
Proof.
  induction a as [|c a IH]; simpl; [reflexivity|].
  now rewrite IH, andb_assoc.
Qed.

Lemma all_chars_concat (p : ascii -> bool) (l : list string) :
  Forall (fun w => all_chars p w = true) l ->
  all_chars p (String.concat EmptyString l) = true.
Proof.
  induction 1 as [|w l Hw _ IH]; [reflexivity|].
  destruct l as [|x l]; [exact Hw|].
  rewrite concat_cons by discriminate.
  cbn [append]. now rewrite all_chars_append, Hw, IH.
Qed.

Lemma not_space_lower (s : string) :
  all_chars not_space s = true -> all_chars not_space (lower s) = true.
Proof.
  induction s as [|c s IH]; simpl; [reflexivity|].
  intros H. apply andb_true_iff in H. destruct H as [Hc Hs].
  unfold not_space in *. now rewrite isspace_lower_char, Hc, IH.
Qed.

Lemma not_space_capitalize (w : string) :
  all_chars not_space w = true -> all_chars not_space (capitalize w) = true.
Proof.
  destruct w as [|c t]; [reflexivity|]. simpl.
  intros H. apply andb_true_iff in H. destruct H as [Hc Ht].
  rewrite (not_space_lower _ Ht). unfold not_space in *.
  now rewrite isspace_upper_char, Hc.
Qed.

Lemma not_space_lower_first (w : string) :
  all_chars not_space w = true -> all_chars not_space (lower_first w) = true.
Proof.
  destruct w as [|c t]; [reflexivity|]. simpl.
  intros H. apply andb_true_iff in H. destruct H as [Hc Ht].
  unfold not_space in *. now rewrite isspace_lower_char, Hc, Ht.
Qed.

(** What [camel_case] computes from the words of a text. *)
Lemma camel_case_words (arg : string) (capitalize_ : pyval) :
  camel_case (PStr arg) capitalize_
  = Return (String.concat EmptyString
              (camel_words capitalize_ (split_whitespace None None arg))).
Proof.
  unfold camel_case. cbn [ensure_string bind].
  destruct arg as [|c t]; [reflexivity|].
  unfold split, str_split. cbn [ensure_string bind str_maxcount maxsplit_fits negb].
  pose proof (split_whitespace_words (String c t) None I) as Hwords.
  destruct (split_whitespace None None (String c t)) as [|w ws].
  - reflexivity.
  - cbn [hd_error map camel_words].
    assert (Hw : exists x y, w = String x y).
    { inversion Hwords as [|? ? [Hne _] _]. destruct w; [now elim Hne|].
      now eexists _, _. }
    destruct Hw as (x & y & ->).
    destruct capitalize_ as [|[|]| |]; cbn [bind set_first lower_first];
      try match goal with
      | |- join _ (PStr ?a :: map PStr ?l) _ = _ =>
          change (PStr a :: map PStr l) with (map PStr (a :: l))
      end; now rewrite join_strings.
Qed.

Lemma concat_empty_first (w : string) (l : list string) :
  String.concat EmptyString (w :: l) = w ++ String.concat EmptyString l.
Proof.
  destruct l as [|x l]; [now rewrite append_empty_r | reflexivity].
Qed.

Lemma camel_words_not_space (capitalize_ : pyval) (words : list string) :
  Forall is_word words ->
  Forall (fun w => all_chars not_space w = true)
    (camel_words capitalize_ words).
Proof.
  intros Hwords. destruct words as [|w ws]; [constructor|].
  inversion Hwords as [|? ? [_ Hw] Hws]. subst.
  cbn [camel_words]. constructor.
  - destruct capitalize_ as [|[|]| |];
      auto using not_space_capitalize, not_space_lower_first.
  - rewrite Forall_forall in *. intros x Hx.
    apply in_map_iff in Hx. destruct Hx as (y & <- & Hy).
    apply not_space_capitalize. now apply Hws.
Qed.

Lemma camel_case_result (arg : string) (capitalize_ : pyval) :
  exists r,
    camel_case (PStr arg) capitalize_ = Return r
    /\ all_chars not_space r = true
    /\ (capitalize_ = PBool false ->
        forall c t, r = String c t -> lower_char c = c).
Proof.
  rewrite camel_case_words. eexists. split; [reflexivity|].
  pose proof (split_whitespace_words arg None I) as Hwords.
  split.
  - apply all_chars_concat. now apply camel_words_not_space.
  - intros -> c t H.
    destruct (split_whitespace None None arg) as [|w ws];
      [discriminate H|].
    inversion Hwords as [|? ? [Hne _] _]. subst.
    destruct w as [|x y]; [now elim Hne|].
    cbn [camel_words lower_first] in H. rewrite concat_empty_first in H.
    injection H as <- _. apply lower_char_idempotent.
Qed.

(** X15: for every text and every value of [capitalize], [camel_case]
    returns, and what it returns holds no white space. *)
Theorem camel_case_without_whitespace (arg : string) (capitalize_ : pyval) :
  exists r,
    camel_case (PStr arg) capitalize_ = Return r
    /\ all_chars not_space r = true.
Proof.
  destruct (camel_case_result arg capitalize_) as (r & Hr & Hns & _).
  now exists r.
Qed.

(** X14: with [capitalize=True] every word is capitalized; with
    [capitalize=False] the first word only has its first character
    lowered, the others are capitalized.  Neither fails, whatever the
    text. *)
Theorem camel_case_forced (arg : string) :
  camel_case (PStr arg) (PBool true)
  = Return (String.concat EmptyString
              (map capitalize (split_whitespace None None arg)))
  /\ camel_case (PStr arg) (PBool false)
     = Return (match split_whitespace None None arg with
               | [] => EmptyString
               | w :: ws =>
                   String.concat EmptyString
                     (lower_first w :: map capitalize ws)
               end).
Proof.
  rewrite !camel_case_words.
  destruct (split_whitespace None None arg); split; reflexivity.
Qed.

Lemma split_whitespace_in_word (s : string) :
  forall w,
    all_chars not_space s = true ->
    split_whitespace None (Some w) s = [w ++ s].
Proof.
  induction s as [|c t IH]; intros w H; cbn [split_whitespace].
  - now rewrite append_empty_r.
  - simpl in H. apply andb_true_iff in H. destruct H as [Hc Ht].
    unfold not_space in Hc. apply negb_true_iff in Hc. rewrite Hc.
    rewrite (IH _ Ht). now rewrite snoc_append.
Qed.

(** A text without white space is its own single word. *)
Lemma split_whitespace_single (r : string) :
  r <> EmptyString -> all_chars not_space r = true ->
  split_whitespace None None r = [r].
Proof.
  destruct r as [|c t]; [now intros H|]. intros _ H.
  cbn [split_whitespace exhausted count_pred option_map].
  simpl in H. apply andb_true_iff in H. destruct H as [Hc Ht].
  unfold not_space in Hc. apply negb_true_iff in Hc. rewrite Hc.
  now rewrite (split_whitespace_in_word _ _ Ht).
Qed.

(** X16: unless [capitalize] is [True], camel-casing a camel-cased text
    changes nothing. *)
Theorem camel_case_idempotent (arg : string) (capitalize_ : pyval) :
  capitalize_ <> PBool true ->
  (r <- camel_case (PStr arg) capitalize_ ;;
   camel_case (PStr r) capitalize_)
  = camel_case (PStr arg) capitalize_.
Proof.
  intros Hcap.
  destruct (camel_case_result arg capitalize_)
    as (r & Hr & Hns & Hfirst).
  rewrite Hr. cbn [bind]. rewrite camel_case_words. f_equal.
  destruct r as [|c t]; [reflexivity|].
  rewrite split_whitespace_single by (discriminate || exact Hns).
  cbn [camel_words map String.concat].
  destruct capitalize_ as [|[|]| |]; try reflexivity.
  - now elim Hcap.
  - cbn [lower_first]. f_equal. exact (Hfirst eq_refl c t eq_refl).
Qed.

Lemma camel_case_idempotent_witness :
  (r <- camel_case (PStr "hello big world") (PBool false) ;;
   camel_case (PStr r) (PBool false))
  = camel_case (PStr "hello big world") (PBool false).
Proof.
  apply (camel_case_idempotent "hello big world" (PBool false)). discriminate.
Defined.

(** ** Replacer: what a replacement keeps *)

Lemma contains_tail (c : ascii) (t k : string) :
  contains t k -> contains (String c t) k.
Proof. intros (a & b & ->). now exists (String c a), b. Qed.

Lemma simultaneous_absent (d : dict) (h out : string) :
  simultaneous d h out ->
  (forall k, In k (dict_keys d) -> ~ contains h k) ->
  out = h.
Proof.
  induction 1 as [|c h out _ _ IH|k v h out _ Hget _ _ _]; intros Habs.
  - reflexivity.
  - f_equal. apply IH. intros k Hk Hc. apply (Habs k Hk).
    now apply contains_tail.
  - exfalso. apply (Habs k (dict_get_some_in_keys _ _ _ Hget)).
    now exists EmptyString, h.
Qed.

Lemma simultaneous_length (d : dict) (h out : string) :
  simultaneous d h out ->
  (forall k v, dict_get d k = Some v -> String.length v = String.length k) ->
  String.length out = String.length h.
Proof.
  induction 1 as [|c h out _ _ IH|k v h out _ Hget _ _ IH]; intros Hlen.
  - reflexivity.
  - simpl. now rewrite IH.
  - rewrite !length_append, IH by exact Hlen. now rewrite (Hlen _ _ Hget).
Qed.

Lemma simultaneous_identity (d : dict) (h out : string) :
  simultaneous d h out ->
  (forall k v, dict_get d k = Some v -> v = k) ->
  out = h.
Proof.
  induction 1 as [|c h out _ _ IH|k v h out _ Hget _ _ IH]; intros Hid.
  - reflexivity.
  - now rewrite IH.
  - now rewrite IH, (Hid _ _ Hget).
Qed.

(** X17: a haystack in which no needle occurs comes back as it is. *)
Theorem replace_without_occurrence (d : dict) (h : string) :
  (forall k, In k (dict_keys d) -> k <> EmptyString) ->
  (forall k, In k (dict_keys d) -> ~ contains h k) ->
  in_ (PStr h) (mk_Replacer (Mapping d))
  = (Return h, mk_Replacer (Mapping d)).
Proof.
  intros Hkeys Habs.
  destruct (in__simultaneous d h Hkeys) as (out & Hout & Hsim).
  now rewrite Hout, (simultaneous_absent _ _ _ Hsim Habs).
Qed.

(** X18: replacements as long as their needles keep the length of every
    haystack, and needles replaced by themselves keep the haystack. *)
Theorem replace_preserves (d : dict) (h : string) :
  (forall k, In k (dict_keys d) -> k <> EmptyString) ->
  ((forall k v, dict_get d k = Some v -> String.length v = String.length k) ->
   exists out,
     in_ (PStr h) (mk_Replacer (Mapping d))
     = (Return out, mk_Replacer (Mapping d))
     /\ String.length out = String.length h)
  /\ ((forall k v, dict_get d k = Some v -> v = k) ->
      in_ (PStr h) (mk_Replacer (Mapping d))
      = (Return h, mk_Replacer (Mapping d))).
Proof.
  intros Hkeys.
  destruct (in__simultaneous d h Hkeys) as (out & Hout & Hsim).
  split.
  - intros Hlen. exists out. split; [exact Hout|].
    now apply (simultaneous_length d).
  - intros Hid. now rewrite Hout, (simultaneous_identity _ _ _ Hsim Hid).
Qed.

Lemma contains_occurs (s sub : string) :
  contains s sub -> occurs sub s = true.
Proof.
  intros (a & b & ->). induction a as [|c a IH].
  - cbn [append]. destruct (sub ++ b) eqn:E; cbn [occurs]; rewrite <- E;
      now rewrite prefix_append.
  - cbn [append occurs]. rewrite IH. apply orb_true_r.
Qed.

Lemma replace_without_occurrence_witness :
  in_ (PStr "hello") (mk_Replacer (Mapping [("a", "b"); ("xy", "z")]))
  = (Return "hello", mk_Replacer (Mapping [("a", "b"); ("xy", "z")])).
Proof.
  apply (replace_without_occurrence [("a", "b"); ("xy", "z")] "hello").
  - intros k [<-|[<-|[]]]; discriminate.
  - intros k [<-|[<-|[]]] H; apply contains_occurs in H; discriminate H.
Defined.

Lemma replace_preserves_witness :
  exists out,
    in_ (PStr "abba") (mk_Replacer (Mapping [("a", "b"); ("b", "a")]))
    = (Return out, mk_Replacer (Mapping [("a", "b"); ("b", "a")]))
    /\ String.length out = String.length "abba".
Proof.
  apply (proj1 (replace_preserves [("a", "b"); ("b", "a")] "abba"
                  ltac:(intros k [<-|[<-|[]]]; discriminate))).
  intros k v H. cbn [dict_get] in H.
  destruct (String.eqb_spec "a" k) as [<-|_]; [now injection H as <-|].
  destruct (String.eqb_spec "b" k) as [<-|_]; [now injection H as <-|].
  discriminate H.
Defined.

(** ** Replacer: the mapping that [with_] and [dict] build *)

Lemma dict_get_set (d : dict) (k v k' : string) :
  dict_get (dict_set d k v) k'
  = if String.eqb k k' then Some v else dict_get d k'.
Proof.
  induction d as [|[x y] d IH]; cbn [dict_set dict_get].
  - reflexivity.
  - destruct (String.eqb_spec x k) as [->|Hxk]; cbn [dict_get].
    + now destruct (String.eqb_spec k k').
    + rewrite IH. destruct (String.eqb_spec x k') as [->|_]; [|reflexivity].
      destruct (String.eqb_spec k k') as [->|_]; [now elim Hxk | reflexivity].
Qed.

Lemma dict_keys_set (d : dict) (k v : string) :
  dict_keys (dict_set d k v)
  = if in_dec string_dec k (dict_keys d) then dict_keys d
    else (dict_keys d ++ [k])%list.
Proof.
  induction d as [|[x y] d IH]; cbn [dict_set dict_keys map fst].
  - reflexivity.
  - destruct (String.eqb_spec x k) as [->|Hxk].
    + cbn [map fst].
      destruct (in_dec string_dec k (k :: map fst d)) as [_|n];
        [reflexivity | elim n; now left].
    + cbn [map fst]. fold (dict_keys (dict_set d k v)). rewrite IH.
      fold (dict_keys d).
      destruct (in_dec string_dec k (dict_keys d)) as [i|n];
        destruct (in_dec string_dec k (x :: dict_keys d)) as [i'|n'];
        try reflexivity.
      * elim n'. now right.
      * destruct i' as [->|i']; [now elim Hxk | now elim n].
Qed.

Lemma dict_set_nodup (d : dict) (k v : string) :
  NoDup (dict_keys d) -> NoDup (dict_keys (dict_set d k v)).
Proof.
  intros H. rewrite dict_keys_set.
  destruct (in_dec string_dec k (dict_keys d)) as [_|n]; [exact H|].
  apply NoDup_app; [exact H | repeat constructor; now intros [] |].
  intros x Hx [<-|[]]. now apply n.
Qed.

Lemma fromkeys_get (keys : list string) (r : string) :
  forall d k,
    dict_get (fold_left (fun d k => dict_set d k r) keys d) k
    = if in_dec string_dec k keys then Some r else dict_get d k.
Proof.
  induction keys as [|x keys IH]; intros d k; cbn [fold_left].
  - reflexivity.
  - rewrite IH, dict_get_set.
    destruct (in_dec string_dec k keys) as [i|n];
      destruct (in_dec string_dec k (x :: keys)) as [i'|n'];
      try reflexivity.
    + elim n'. now right.
    + destruct i' as [->|i']; [now rewrite String.eqb_refl | now elim n].
    + destruct (String.eqb_spec x k) as [->|_]; [elim n'; now left|].
      reflexivity.
Qed.

Lemma fold_set_nodup {A : Type} (f : A -> string * string) (xs : list A) :
  forall d,
    NoDup (dict_keys d) ->
    NoDup (dict_keys
             (fold_left (fun d x => dict_set d (fst (f x)) (snd (f x))) xs d)).
Proof.
  induction xs as [|x xs IH]; intros d H; cbn [fold_left]; [exact H|].
  apply IH. now apply dict_set_nodup.
Qed.

(** X19: giving the replacement [r] to a pending replacer completes it: the
    mapping it then holds has each needle once, sends every needle to
    [r], and has no other key. *)
Theorem with__completes_replacer (needles : list string) (r : string) :
  exists d,
    with_ (PStr r) (mk_Replacer (Needles needles))
    = (Return tt, mk_Replacer (Mapping d))
    /\ NoDup (dict_keys d)
    /\ (forall k, In k needles -> dict_get d k = Some r)
    /\ (forall k, ~ In k needles -> dict_get d k = None).
Proof.
  exists (dict_fromkeys needles r). split; [reflexivity|].
  unfold dict_fromkeys. split; [|split].
  - apply (fold_set_nodup (fun k => (k, r))). constructor.
  - intros k Hk. rewrite fromkeys_get.
    now destruct (in_dec string_dec k needles).
  - intros k Hk. rewrite fromkeys_get.
    now destruct (in_dec string_dec k needles).
Qed.

Lemma of_pairs_get (ps : list (string * string)) :
  forall d k,
    dict_get (fold_left (fun d kv => dict_set d (fst kv) (snd kv)) ps d) k
    = match dict_get (rev ps) k with
      | Some v => Some v
      | None => dict_get d k
      end.
Proof.
  induction ps as [|[x y] ps IH]; intros d k; cbn [fold_left rev].
  - reflexivity.
  - rewrite IH. cbn [fst snd]. rewrite dict_get_set.
    assert (Happ : forall l, dict_get (l ++ [(x, y)])%list k
                   = match dict_get l k with
                     | Some v => Some v
                     | None => if String.eqb x k then Some y else None
                     end).
    { induction l as [|[a b] l IHl]; cbn [app dict_get]; [reflexivity|].
      now destruct (String.eqb a k). }
    rewrite Happ.
    destruct (dict_get (rev ps) k); [reflexivity|].
    now destruct (String.eqb x k).
Qed.

Lemma dict_set_not_empty (d : dict) (k v : string) : dict_set d k v <> [].
Proof.
  destruct d as [|[x y] d]; cbn [dict_set]; [discriminate|].
  destruct (String.eqb x k); discriminate.
Qed.

Lemma fold_set_not_empty {A : Type} (f : A -> string * string)
    (xs : list A) :
  forall d,
    d <> [] ->
    fold_left (fun d x => dict_set d (fst (f x)) (snd (f x))) xs d <> [].
Proof.
  induction xs as [|x xs IH]; intros d H; cbn [fold_left]; [exact H|].
  apply IH, dict_set_not_empty.
Qed.

Lemma item_pairs_pair_items (ps : list (string * string)) :
  item_pairs (pair_items ps) = ps.
Proof.
  induction ps as [|[k v] ps IH]; simpl; [reflexivity | now rewrite IH].
Qed.

Lemma forallb_is_pair_pair_items (ps : list (string * string)) :
  forallb is_pair (pair_items ps) = true.
Proof. induction ps as [|[k v] ps IH]; simpl; [reflexivity | exact IH]. Qed.

(** X20: a needle given as pairs is the mapping the pairs make, in which the
    last pair of a needle gives its replacement and no needle stands
    twice. *)
Theorem replace_with_pairs (ps : list (string * string))
    (with__ in__ : pyval) :
  ps <> [] ->
  replace (NeedleIterable (pair_items ps)) with__ in__
  = replace (NeedleMapping (dict_of_pairs ps)) with__ in__
  /\ NoDup (dict_keys (dict_of_pairs ps))
  /\ (forall k, dict_get (dict_of_pairs ps) k = dict_get (rev ps) k).
Proof.
  intros Hps. split; [|split].
  - unfold replace.
    assert (H1 : needle_truthy (NeedleIterable (pair_items ps)) = true).
    { destruct ps; [now elim Hps | reflexivity]. }
    assert (H2 : needle_truthy (NeedleMapping (dict_of_pairs ps)) = true).
    { cbn [needle_truthy]. unfold dict_of_pairs.
      destruct ps as [|p ps]; [now elim Hps|]. cbn [fold_left].
      pose proof (fold_set_not_empty (fun kv => kv) ps
                    (dict_set [] (fst p) (snd p))
                    (dict_set_not_empty _ _ _)) as Hne.
      destruct (fold_left _ ps _); [now elim Hne | reflexivity]. }
    rewrite H1, H2. cbn [negb].
    now rewrite forallb_is_pair_pair_items, item_pairs_pair_items.
  - apply (fold_set_nodup (fun kv => kv)). constructor.
  - intros k. unfold dict_of_pairs. rewrite of_pairs_get.
    now destruct (dict_get (rev ps) k).
Qed.

Lemma replace_with_pairs_witness :
  replace (NeedleIterable (pair_items [("a", "1"); ("b", "2"); ("a", "3")]))
    PNone (PStr "ab")
  = replace (NeedleMapping (dict_of_pairs [("a", "1"); ("b", "2"); ("a", "3")]))
      PNone (PStr "ab").
Proof.
  apply (replace_with_pairs [("a", "1"); ("b", "2"); ("a", "3")]).
  discriminate.
Defined.

(** ** replace: the one-call form *)

Lemma literal_items_not_pairs (ns : list string) :
  ns <> [] -> forallb is_pair (literal_items ns) = false.
Proof. destruct ns; [now intros H | reflexivity]. Qed.

Lemma literal_items_strings (ns : list string) :
  forallb item_is_string (literal_items ns) = true
  /\ item_strings (literal_items ns) = ns.
Proof.
  induction ns as [|n ns [IH1 IH2]]; simpl; [now split|].
  now rewrite IH1, IH2.
Qed.

Lemma fromkeys_keys (needles : list string) (r k : string) :
  In k (dict_keys (dict_fromkeys needles r)) -> In k needles.
Proof.
  intros H. destruct (dict_get_in_keys _ _ H) as [v Hv].
  unfold dict_fromkeys in Hv. rewrite fromkeys_get in Hv.
  destruct (in_dec string_dec k needles) as [i|_]; [exact i | discriminate Hv].
Qed.

(** X21: needles, replacement and haystack given in one call: for literals
    that are not empty, [replace] returns the simultaneous replacement
    of every needle by the one replacement. *)
Theorem replace_literals_at_once (ns : list string) (r h : string) :
  ns <> [] ->
  (forall n, In n ns -> n <> EmptyString) ->
  exists out,
    replace (NeedleIterable (literal_items ns)) (PStr r) (PStr h)
    = Return (Replaced out)
    /\ simultaneous (dict_fromkeys ns r) h out.
Proof.
  intros Hns Hne.
  assert (Hkeys : forall k, In k (dict_keys (dict_fromkeys ns r)) ->
                            k <> EmptyString).
  { intros k Hk. apply Hne. now apply fromkeys_keys with r. }
  destruct (in__simultaneous _ h Hkeys) as (out & Hout & Hsim).
  exists out. split; [|exact Hsim].
  unfold replace.
  assert (Ht : needle_truthy (NeedleIterable (literal_items ns)) = true).
  { destruct ns; [now elim Hns | reflexivity]. }
  rewrite Ht. cbn [negb].
  rewrite (literal_items_not_pairs _ Hns).
  destruct (literal_items_strings ns) as [-> ->].
  cbn [negb bind py_eq as_integral ensure_string with_ _replacements].
  now rewrite Hout.
Qed.

Lemma replace_literals_at_once_witness :
  exists out,
    replace (NeedleIterable (literal_items ["a"; "b"])) (PStr "z")
      (PStr "ab cab")
    = Return (Replaced out)
    /\ simultaneous (dict_fromkeys ["a"; "b"] "z") "ab cab" out.
Proof.
  apply (replace_literals_at_once ["a"; "b"] "z" "ab cab").
  - discriminate.
  - intros n [<-|[<-|[]]]; discriminate.
Defined.

(** X22: what [replace] refuses: no needle, an empty needle, a replacement
    for needles that came as a mapping, and a haystack for needles that
    have no replacement yet. *)
Theorem replace_refusals :
  (forall w h,
      replace (NeedleValue PNone) w h
      = Raise (TypeError "replacement needle cannot be None"))
  /\ (forall needle w h,
         needle <> NeedleValue PNone -> needle_truthy needle = false ->
         replace needle w h
         = Raise (ValueError "replacement needle cannot be empty"))
  /\ (forall d r h,
         d <> [] ->
         replace (NeedleMapping d) (PStr r) h
         = Raise (ReplacementError "string replacements already provided"))
  /\ (forall ns h,
         ns <> [] ->
         replace (NeedleIterable (literal_items ns)) PNone (PStr h)
         = Raise (ReplacementError "string replacements not provided")).
Proof.
  split; [reflexivity|]. split; [|split].
  - intros needle w h Hn Ht. unfold replace. rewrite Ht.
    destruct needle as [[| | |]| |]; try reflexivity. now elim Hn.
  - intros d r h Hd. unfold replace.
    destruct d as [|kv d]; [now elim Hd | reflexivity].
  - intros ns h Hns. unfold replace.
    assert (Ht : needle_truthy (NeedleIterable (literal_items ns)) = true).
    { destruct ns; [now elim Hns | reflexivity]. }
    rewrite Ht. cbn [negb].
    rewrite (literal_items_not_pairs _ Hns).
    destruct (literal_items_strings ns) as [-> ->]. reflexivity.
Qed.

Lemma replace_refusals_witness :
  replace (NeedleMapping [("a", "b")]) (PStr "c") (PStr "abc")
  = Raise (ReplacementError "string replacements already provided")
  /\ replace (NeedleIterable (literal_items ["a"])) PNone (PStr "abc")
     = Raise (ReplacementError "string replacements not provided").
Proof.
  destruct replace_refusals as (_ & _ & H3 & H4).
  split; [apply H3; discriminate | apply H4; discriminate].
Defined.

(** ** The order of needles of equal length *)

Lemma insert_by_length_stable (n : nat) (x : string) (xs : list string) :
  filter (fun y => Nat.eqb (String.length y) n) (insert_by_length x xs)
  = filter (fun y => Nat.eqb (String.length y) n) (x :: xs).
Proof.
  induction xs as [|y ys IH]; cbn [insert_by_length]; [reflexivity|].
  destruct (Nat.ltb_spec (String.length x) (String.length y)) as [Hlt|_];
    [|reflexivity].
  cbn [filter] in *. rewrite IH.
  destruct (Nat.eqb_spec (String.length x) n) as [Hx|_];
    destruct (Nat.eqb_spec (String.length y) n) as [Hy|_];
    try reflexivity.
  lia.
Qed.

(** X23: the sort of the needles by length is stable: needles of one length
    stay in the order they had. *)
Theorem sorted_by_length_desc_stable (n : nat) (xs : list string) :
  filter (fun y => Nat.eqb (String.length y) n) (sorted_by_length_desc xs)
  = filter (fun y => Nat.eqb (String.length y) n) xs.
Proof.
  induction xs as [|x xs IH]; [reflexivity|].
  cbn [sorted_by_length_desc fold_right].
  rewrite insert_by_length_stable. cbn [filter].
  fold (sorted_by_length_desc xs). now rewrite IH.
Qed.

(** ** random *)

Lemma get_char_in (chars : string) :
  forall n, n < String.length chars ->
            exists c, String.get n chars = Some c /\ char_in chars c = true.
Proof.
  induction chars as [|x t IH]; intros n Hn; [simpl in Hn; lia|].
  destruct n as [|n]; cbn [String.get char_in].
  - exists x. now rewrite Ascii.eqb_refl.
  - destruct (IH n) as (c & Hc & Hin); [simpl in Hn; lia|].
    exists c. rewrite Hin. split; [exact Hc | apply orb_true_r].
Qed.

Lemma choices_spec (draws : entropy) (chars : string) :
  chars <> EmptyString ->
  forall n i,
    exists cs,
      choices draws chars n i = (cs, i + n)
      /\ String.length (String.concat EmptyString cs) = n
      /\ all_chars (char_in chars) (String.concat EmptyString cs) = true.
Proof.
  intros Hne. induction n as [|n IH]; intros i; cbn [choices].
  - exists []. rewrite Nat.add_0_r. now repeat split.
  - unfold choice.
    destruct (get_char_in chars (draws i mod String.length chars))
      as (c & Hc & Hin).
    { apply Nat.mod_upper_bound. destruct chars; [now elim Hne | discriminate]. }
    rewrite Hc. destruct (IH (S i)) as (cs & Hcs & Hlen & Hall).
    rewrite Hcs. exists (String c EmptyString :: cs).
    rewrite concat_empty_first. cbn [append String.length all_chars].
    rewrite Hlen, Hall, Hin. repeat split. f_equal. lia.
Qed.

(** What [random] does once the length is known. *)
Lemma random_drawn (draws : entropy) (chars : pyval) (length : length_arg)
    (n : Z) (i j : nat) :
  valid_chars chars ->
  match length with
  | LengthPair lo hi => randint draws lo hi i = Return (n, j)
  | LengthValue v => as_integral v = Some n /\ (0 < n)%Z /\ j = i
  end ->
  exists s,
    random draws length chars i = Return (s, j + Z.to_nat n)
    /\ String.length s = Z.to_nat n
    /\ all_chars (char_in (alphabet chars)) s = true.
Proof.
  intros Hc Hlen.
  assert (Hne : alphabet chars <> EmptyString).
  { destruct Hc as [->|(s & -> & Hs)]; [discriminate | exact Hs]. }
  destruct (choices_spec draws _ Hne (Z.to_nat n) j) as (cs & Hcs & Hl & Ha).
  exists (String.concat EmptyString cs). split; [|now split].
  unfold random.
  assert (Hchars :
            match chars with
            | PNone => Return (ascii_letters ++ digits)
            | _ => chars0 <- ensure_string chars ;;
                   match chars0 with
                   | EmptyString =>
                       Raise (ValueError "character set must not be empty")
                   | _ => Return chars0
                   end
            end = Return (alphabet chars)).
  { destruct Hc as [->|(s & -> & Hs)]; [reflexivity|].
    destruct s; [now elim Hs | reflexivity]. }
  rewrite Hchars. cbn [bind].
  assert (Hdrawn :
            match length with
            | LengthPair lo hi => randint draws lo hi i
            | LengthValue v =>
                match as_integral v with
                | Some n0 =>
                    if negb (0 <? n0)%Z
                    then Raise (ValueError
                           "random string length must be positive (got %r)")
                    else Return (n0, i)
                | None =>
                    Raise (TypeError
                      "random string length must be an integer; got '%s'")
                end
            end = Return (n, j)).
  { destruct length as [lo hi|v]; [exact Hlen|].
    destruct Hlen as (-> & Hpos & ->).
    destruct (Z.ltb_spec 0 n); [reflexivity | lia]. }
  rewrite Hdrawn. cbn [bind]. rewrite Hcs, join_strings. reflexivity.
Qed.

(** X24: a fixed positive length [n] gives a string of exactly [n]
    characters, each taken from the character set, for [n] draws; the
    default set is that of the ASCII letters and the digits. *)
Theorem random_fixed_length (draws : entropy) (n : Z) (chars : pyval)
    (i : nat) :
  (0 < n)%Z -> valid_chars chars ->
  exists s,
    random draws (LengthValue (PInt n)) chars i = Return (s, i + Z.to_nat n)
    /\ Z.of_nat (String.length s) = n
    /\ all_chars (char_in (alphabet chars)) s = true.
Proof.
  intros Hn Hc.
  destruct (random_drawn draws chars (LengthValue (PInt n)) n i i Hc)
    as (s & Hs & Hl & Ha); [now repeat split|].
  exists s. repeat split; [exact Hs | lia | exact Ha].
Qed.

Lemma random_fixed_length_witness :
  exists s,
    random (fun k => 7 * k) (LengthValue (PInt 10)) PNone 0
    = Return (s, 0 + Z.to_nat 10)
    /\ Z.of_nat (String.length s) = 10%Z
    /\ all_chars (char_in (alphabet PNone)) s = true.
Proof.
  apply (random_fixed_length (fun k => 7 * k) 10 PNone 0); [lia | now left].
Defined.

(** X25: a length given as a pair of bounds, the lower one not negative,
    gives a string whose length lies within the bounds, both included,
    with its characters taken from the character set; a pair whose
    bounds are out of order is a [ValueError]. *)
Theorem random_length_in_bounds (draws : entropy) (lo hi : Z)
    (chars : pyval) (i : nat) :
  valid_chars chars ->
  ((0 <= lo <= hi)%Z ->
   exists s j,
     random draws (LengthPair lo hi) chars i = Return (s, j)
     /\ (lo <= Z.of_nat (String.length s) <= hi)%Z
     /\ all_chars (char_in (alphabet chars)) s = true)
  /\ ((hi < lo)%Z ->
      random draws (LengthPair lo hi) chars i
      = Raise (ValueError "empty range for randrange()")).
Proof.
  intros Hc. split.
  - intros Hb.
    set (n := (lo + Z.of_nat (draws i) mod (hi - lo + 1))%Z).
    assert (Hn : (lo <= n <= hi)%Z).
    { pose proof (Z.mod_pos_bound (Z.of_nat (draws i)) (hi - lo + 1)).
      unfold n. lia. }
    destruct (random_drawn draws chars (LengthPair lo hi) n i (S i) Hc)
      as (s & Hs & Hl & Ha).
    { unfold randint. destruct (Z.ltb_spec hi lo); [lia | reflexivity]. }
    exists s, (S i + Z.to_nat n). repeat split; [exact Hs | lia | lia | exact Ha].
  - intros Hlt. unfold random, randint.
    destruct (Z.ltb_spec hi lo) as [_|Hge]; [|lia].
    destruct Hc as [->|(s & -> & Hs)]; [reflexivity|].
    destruct s; [now elim Hs | reflexivity].
Qed.

Lemma random_length_in_bounds_witness :
  exists s j,
    random (fun k => 5 * k + 3) (LengthPair 2 4) (PStr "xyz") 0 = Return (s, j)
    /\ (2 <= Z.of_nat (String.length s) <= 4)%Z
    /\ all_chars (char_in (alphabet (PStr "xyz"))) s = true.
Proof.
  apply (proj1 (random_length_in_bounds (fun k => 5 * k + 3) 2 4 (PStr "xyz") 0
                  ltac:(right; exists "xyz"; split;
                        [reflexivity | discriminate]))).
  lia.
Defined.

(** ** The assertions on strings *)

Lemma startswith_iff (s p : string) :
  startswith s p = true <-> exists r, s = p ++ r.
Proof.
  unfold startswith. split.
  - apply prefix_split.
  - intros [r ->]. apply prefix_append.
Qed.

Lemma endswith_iff (s x : string) :
  endswith s x = true <-> exists r, s = r ++ x.
Proof.
  split.
  - apply endswith_split.
  - intros [r ->]. apply endswith_append.
Qed.

(** X26: for strings, [assertStartsWith] passes exactly when the strict
    [trim] of the prefix returns, and [assertEndsWith] exactly when the
    strict [trim] of the suffix does; otherwise the assertion fails, and
    the [trim] is a [ValueError]. *)
Theorem assert_affix_agrees_with_trim (p s : string) (msg : option string) :
  (assertStartsWith (AffixValue (PStr p)) (PStr s) msg = Pass
   <-> exists r, trim (PStr s) (PStr p) PNone true = Return r)
  /\ (assertEndsWith (AffixValue (PStr p)) (PStr s) msg = Pass
      <-> exists r, trim (PStr s) PNone (PStr p) true = Return r)
  /\ (assertStartsWith (AffixValue (PStr p)) (PStr s) msg
      = Fail "%r does not start with %r" msg
      <-> trim (PStr s) (PStr p) PNone true
          = Raise (ValueError
                     "string %r does not start with expected prefix %r"))
  /\ (assertEndsWith (AffixValue (PStr p)) (PStr s) msg
      = Fail "%r does not end with %r" msg
      <-> trim (PStr s) PNone (PStr p) true
          = Raise (ValueError
                     "string %r does not end with expected suffix %r")).
Proof.
  unfold assertStartsWith, assertEndsWith, assert_affix, trim.
  cbn [fail_unless_strings is_string assertIsInstance_string str_affix_test
       ensure_string bind py_eq as_integral negb Bool.eqb].
  destruct (startswith s p); destruct (endswith s p);
    repeat split; intros H; try discriminate H; try reflexivity;
    try match goal with
        | E : exists _, _ |- _ => destruct E as [? E]; discriminate E
        end; eauto.
Qed.

Lemma any_affix_strings (name : string) (test : string -> bool)
    (ps : list string) :
  any_affix name test (map PStr ps) = Return (existsb test ps).
Proof.
  induction ps as [|p ps IH]; simpl; [reflexivity|].
  now destruct (test p).
Qed.

(** X27: with a tuple of strings the assertion passes exactly when one of
    them is a prefix, and fails otherwise.  A list of strings is let
    through by the check of the argument but is not taken by
    [str.startswith]: the assertion then ends in a [TypeError]. *)
Theorem assertStartsWith_collections (ps : list string) (s : string)
    (msg : option string) :
  assertStartsWith (AffixTuple (map PStr ps)) (PStr s) msg
  = (if existsb (startswith s) ps then Pass
     else Fail "%r does not start with %r" msg)
  /\ assertStartsWith (AffixList (map PStr ps)) (PStr s) msg
     = Error (TypeError
                "startswith first arg must be str or a tuple of str, not %s").
Proof.
  unfold assertStartsWith, assert_affix, fail_unless_strings.
  assert (Hall : forallb is_string (map PStr ps) = true)
    by (induction ps; [reflexivity | exact IHps]).
  rewrite Hall.
  cbn [assertIsInstance_string is_string str_affix_test].
  rewrite any_affix_strings. split; [|reflexivity].
  now destruct (existsb (startswith s) ps).
Qed.

(** ** split: what it refuses, and the limit below zero *)

(** X8: an empty separator is a [ValueError] in each of its shapes (for
    the empty literal, when [maxsplit] is left out or fits a C
    [ssize_t]), a collection with an element that is not a string a
    [TypeError] even for the empty string, any other delimiter and any
    text that is not a string a [TypeError].  The collection of the one
    empty literal is refused for a string that is not empty only.  A
    [maxsplit] that does not fit is an [OverflowError] of [str.split],
    whatever the literal. *)
Theorem split_refusals (s : string) (maxsplit : option Z) :
  (within_ssize_t maxsplit ->
   split (PStr s) (ByString EmptyString) maxsplit
   = Raise (ValueError "empty separator"))
  /\ (forall r, pattern r = EmptyString ->
                split (PStr s) (ByRegex r) maxsplit
                = Raise (ValueError "empty separator"))
  /\ split (PStr s) (ByIterable []) maxsplit
     = Raise (ValueError "empty separator list")
  /\ (forall items, forallb is_string items = false ->
                    split (PStr s) (ByIterable items) maxsplit
                    = Raise (TypeError "expected a string, got %s"))
  /\ (forall v, split (PStr s) (ByOther v) maxsplit
                = Raise (TypeError "invalid separator"))
  /\ (forall v by_, is_string v = false ->
                    split v by_ maxsplit
                    = Raise (TypeError "expected a string, got %s"))
  /\ split (PStr s) (ByIterable [PStr EmptyString]) maxsplit
     = match s with
       | EmptyString => Return [EmptyString]
       | _ => Raise (ValueError "empty separator")
       end
  /\ (forall m d,
         ~ (- 2 ^ 63 <= m < 2 ^ 63)%Z ->
         split (PStr s) ByNone (Some m)
         = Raise (OverflowError "Python int too large to convert to C ssize_t")
         /\ split (PStr s) (ByString d) (Some m)
            = Raise (OverflowError
                       "Python int too large to convert to C ssize_t")).
Proof.
  split; [|split; [|split; [reflexivity|split; [|split;
    [reflexivity|split; [|split]]]]]].
  - intros Hm. unfold split. cbn [ensure_string bind].
    now rewrite (str_split_fits _ _ _ Hm).
  - intros r Hr. unfold split, split_regex. cbn [ensure_string bind].
    now rewrite Hr.
  - intros items H. unfold split. cbn [ensure_string bind].
    destruct items as [|x items]; [discriminate H|].
    now rewrite (mapM_ensure_string_some _ H).
  - intros v by_ H. destruct v; try reflexivity. discriminate H.
  - now destruct s.
  - intros m d Hm. unfold split, str_split. cbn [ensure_string bind maxsplit_fits].
    destruct (ssize_t_fits m) eqn:E;
      [apply ssize_t_fits_iff in E; now elim Hm|].
    now split.
Qed.

Lemma split_refusals_witness :
  split (PStr "abc") (ByString EmptyString) (Some 2%Z)
  = Raise (ValueError "empty separator")
  /\ split (PStr EmptyString) (ByIterable [PStr ","; PInt 1]) None
     = Raise (TypeError "expected a string, got %s")
  /\ split (PStr "abc") (ByString ",") (Some (2 ^ 63)%Z)
     = Raise (OverflowError "Python int too large to convert to C ssize_t").
Proof.
  destruct (split_refusals "abc" (Some 2%Z)) as (H1 & _ & _ & _ & _ & _ & _ & H8).
  destruct (split_refusals EmptyString None) as (_ & _ & _ & H4 & _).
  split; [apply H1; simpl; lia|].
  split; [apply H4; reflexivity|].
  apply (H8 (2 ^ 63)%Z ","). lia.
Defined.

Lemma split_sep_no_limit_negative (m : Z) :
  (m < 0)%Z -> str_maxcount (Some m) = None.
Proof.
  intros H. unfold str_maxcount. now destruct (Z.ltb_spec m 0); [|lia].
Qed.

(** X9: a limit below zero that fits a C [ssize_t]: no limit for [None]
    and for a literal, as in [str.split], but no split at all for a
    compiled pattern and for a collection of literals. *)
Theorem split_negative_limit (s : string) (m : Z) :
  (- 2 ^ 63 <= m < 0)%Z ->
  split (PStr s) ByNone (Some m) = split (PStr s) ByNone None
  /\ (forall d, split (PStr s) (ByString d) (Some m)
                = split (PStr s) (ByString d) None)
  /\ (forall r, pattern r <> EmptyString ->
                split (PStr s) (ByRegex r) (Some m) = Return [s])
  /\ (forall ls, s <> EmptyString -> ls <> [] -> ls <> [EmptyString] ->
                 split (PStr s) (ByIterable (map PStr ls)) (Some m)
                 = Return [s]).
Proof.
  intros Hm.
  assert (Hw : within_ssize_t (Some m)) by (cbn [within_ssize_t]; lia).
  assert (Hneg : (m < 0)%Z) by lia.
  assert (Hre : forall r, pattern r <> EmptyString ->
                          split_regex s r (Some m) = Return [s]).
  { intros r Hr. unfold split_regex.
    destruct (pattern r); [now elim Hr|].
    rewrite (proj2 (ssize_t_fits_iff m)) by exact Hw.
    destruct m as [|m|m]; try lia.
    unfold re_split, re_maxcount. cbn [Z.eqb Z.ltb Z.compare].
    now destruct s. }
  split; [|split; [|split]].
  - unfold split. cbn [ensure_string bind].
    rewrite (str_split_fits _ _ _ Hw), (str_split_fits s None None I).
    now rewrite split_sep_no_limit_negative.
  - intros d. unfold split. cbn [ensure_string bind].
    rewrite (str_split_fits _ _ _ Hw), (str_split_fits s (Some d) None I).
    now rewrite split_sep_no_limit_negative.
  - intros r Hr. unfold split. cbn [ensure_string bind]. now apply Hre.
  - intros ls Hs Hne Hls. unfold split. cbn [ensure_string bind].
    destruct ls as [|x l]; [now elim Hne|].
    cbn [map]. change (PStr x :: map PStr l) with (map PStr (x :: l)).
    rewrite mapM_ensure_string. cbn [bind].
    destruct s as [|c t]; [now elim Hs|].
    rewrite join_strings. cbn [bind]. apply Hre.
    cbn [pattern re_compile_literals]. intros E.
    destruct (alternation_text_empty _ E) as [H|H];
      [discriminate H | now elim Hls].
Qed.

Lemma split_negative_limit_witness :
  split (PStr "a,b") (ByString ",") (Some (-1)%Z)
  = split (PStr "a,b") (ByString ",") None
  /\ split (PStr "a,b") (ByIterable (map PStr [","])) (Some (-1)%Z)
     = Return ["a,b"].
Proof.
  destruct (split_negative_limit "a,b" (-1)) as (_ & H2 & _ & H4); [lia|].
  split; [apply H2 | apply H4; discriminate].
Defined.

(** ** Words joined and split again *)

Lemma split_whitespace_word_then_space (w rest : string) :
  all_chars not_space w = true ->
  forall acc,
    split_whitespace None (Some acc) (w ++ String " " rest)
    = (acc ++ w) :: split_whitespace None None rest.
Proof.
  induction w as [|c w IH]; intros H acc; cbn [append split_whitespace].
  - rewrite append_empty_r. reflexivity.
  - simpl in H. apply andb_true_iff in H. destruct H as [Hc Hw].
    unfold not_space in Hc. apply negb_true_iff in Hc. rewrite Hc.
    rewrite (IH Hw). now rewrite snoc_append.
Qed.

Lemma split_whitespace_joined (ws : list string) :
  Forall is_word ws ->
  split_whitespace None None (String.concat " " ws) = ws.
Proof.
  induction 1 as [|w ws [Hne Hw] Hws IH]; [reflexivity|].
  destruct ws as [|w' ws].
  - cbn [String.concat]. now apply split_whitespace_single.
  - rewrite concat_cons by discriminate.
    destruct w as [|c t]; [now elim Hne|].
    cbn [append split_whitespace exhausted count_pred option_map].
    simpl in Hw. apply andb_true_iff in Hw. destruct Hw as [Hc Ht].
    unfold not_space in Hc. apply negb_true_iff in Hc. rewrite Hc.
    rewrite (split_whitespace_word_then_space _ _ Ht).
    now rewrite IH.
Qed.

(** X10: words joined by a space and split on white space are the same
    words again. *)
Theorem split_join_words (ws : list string) :
  Forall is_word ws ->
  (text <- join (PStr " ") (map PStr ws) no_kwargs ;;
   split (PStr text) ByNone None) = Return ws.
Proof.
  intros H. rewrite join_strings. cbn [bind].
  unfold split, str_split. cbn [ensure_string bind str_maxcount maxsplit_fits negb].
  now rewrite split_whitespace_joined.
Qed.

Lemma split_join_words_witness :
  (text <- join (PStr " ") (map PStr ["to"; "be"; "or"]) no_kwargs ;;
   split (PStr text) ByNone None) = Return ["to"; "be"; "or"].
Proof.
  apply (split_join_words ["to"; "be"; "or"]).
  repeat constructor; discriminate.
Defined.

(** ** trim, twice *)

Lemma trim_present_prefix (p s : string) (strict : bool) :
  trim (PStr (p ++ s)) (PStr p) PNone strict = Return s.
Proof.
  unfold trim, startswith. simpl. now rewrite prefix_append, drop_append.
Qed.

Lemma trim_present_suffix (s x : string) (strict : bool) :
  trim (PStr (s ++ x)) PNone (PStr x) strict = Return s.
Proof.
  unfold trim. simpl. rewrite endswith_append.
  destruct x as [|c x]; [now rewrite append_empty_r|].
  rewrite length_append.
  replace (String.length s + String.length (String c x)
           - String.length (String c x)) with (String.length s) by lia.
  now rewrite take_append.
Qed.

(** X2: a prefix and a suffix put around a string are taken off again by
    two calls of [trim], in either order. *)
Theorem trim_prefix_then_suffix (p s x : string) (strict : bool) :
  (r <- trim (PStr (p ++ s ++ x)) (PStr p) PNone strict ;;
   trim (PStr r) PNone (PStr x) strict) = Return s
  /\ (r <- trim (PStr (p ++ s ++ x)) PNone (PStr x) strict ;;
      trim (PStr r) (PStr p) PNone strict) = Return s.
Proof.
  split.
  - rewrite trim_present_prefix. cbn [bind]. apply trim_present_suffix.
  - rewrite <- append_assoc, trim_present_suffix. cbn [bind].
    apply trim_present_prefix.
Qed.
